(** * file-uploader: a resumable upload server (server.js) and its offline
      sweep (scripts/cleanup.js), embedded shallowly.

    JavaScript strings are sequences of UTF-16 code units; they are modelled
    as [list N].  The upload directory is a finite map from entry names to
    what [fs.stat] reports about them.  Asynchronous code is modelled in a
    state-and-exception monad over the directory and the log. *)

From Stdlib Require Import ZArith NArith List Ascii String Lia Bool.
From stdpp Require Import base option list gmap.

Local Open Scope Z_scope.

(* ===================================================================== *)
(** ** JavaScript strings *)
(* ===================================================================== *)

Module JS.

(** A string is a list of UTF-16 code units. *)
Abbreviation str := (list N).

(** Code units of an ASCII literal. *)
Fixpoint lit (s : string) : str :=
  match s with
  | EmptyString => []
  | String a r => N_of_ascii a :: lit r
  end.

Definition SLASH : N := 47.      (* '/' *)
Definition BACKSLASH : N := 92.  (* '\' *)
Definition DOT : N := 46.        (* '.' *)
Definition DASH : N := 45.       (* '-' *)

(** Truthiness of a string value: only the empty string is falsy. *)
Definition truthy (s : str) : bool :=
  match s with [] => false | _ :: _ => true end.

(** [WhiteSpace] and [LineTerminator] code points of ECMAScript, the ones
    [String.prototype.trim] strips. *)
Definition is_white_space (c : N) : bool :=
  (bool_decide (c ∈ [9; 10; 11; 12; 13; 32; 160; 5760; 8232; 8233; 8239;
                     8287; 12288; 65279])
   || ((8192 <=? c) && (c <=? 8202)))%N.

Fixpoint trimStart (s : str) : str :=
  match s with
  | [] => []
  | c :: r => if is_white_space c then trimStart r else s
  end.

Definition trimEnd (s : str) : str := rev (trimStart (rev s)).

(** [s.trim()] *)
Definition trim (s : str) : str := trimEnd (trimStart s).

(** [s.substring(0, n)] for a non-negative literal [n]. *)
Definition substring0 (n : nat) (s : str) : str := take n s.

(** [s.slice(from, to)], with JavaScript's treatment of negative and
    out-of-range indices. *)
Definition slice (s : str) (from to : Z) : str :=
  let len := Z.of_nat (length s) in
  let clamp k := if k <? 0 then Z.max (len + k) 0 else Z.min k len in
  let a := clamp from in
  let b := clamp to in
  take (Z.to_nat (b - a)) (drop (Z.to_nat a) s).

(** [s.charCodeAt(i)] for an index inside the string. *)
Definition charCodeAt (s : str) (i : nat) : N := nth i s 0%N.

(** A number as [parseInt] returns it: an integer, or [NaN] when the text
    does not start with one. *)
Inductive num :=
| Num (z : Z)
| NaN.

Coercion Num : Z >-> num.

(** [a < b] and [a >= b]: both are false as soon as one side is [NaN]. *)
Definition num_lt (a b : num) : bool :=
  match a, b with
  | Num x, Num y => x <? y
  | _, _ => false
  end.

Definition num_ge (a b : num) : bool :=
  match a, b with
  | Num x, Num y => y <=? x
  | _, _ => false
  end.

(** [sub] occurs in [s] as a substring. *)
Definition includes (s sub : str) : Prop :=
  ∃ a b, s = a ++ sub ++ b.

(** [t] is a contiguous piece of [s]. *)
Definition infix_of (t s : str) : Prop :=
  ∃ a b, s = a ++ t ++ b.

End JS.

Import JS.

(* ===================================================================== *)
(** ** server.js: sanitizeFilename *)
(* ===================================================================== *)

(** The character class of the first [replace]: slash, backslash, question
    mark, percent, asterisk, colon, bar, double quote, less-than and
    greater-than. *)
Definition hostile (c : N) : bool :=
  bool_decide (c ∈ [47; 92; 63; 37; 42; 58; 124; 34; 60; 62]%N).

(** The first [replace]: every character of the class becomes a dash. *)
Definition replace_hostile (s : str) : str :=
  map (fun c => if hostile c then DASH else c) s.

(** [.replace(/\.\./g, '-')]: matches are found left to right and do not
    overlap. *)
Fixpoint replace_dotdot (s : str) : str :=
  match s with
  | [] => []
  | c :: r =>
      match r with
      | d :: r' =>
          if (c =? DOT)%N && (d =? DOT)%N
          then DASH :: replace_dotdot r'
          else c :: replace_dotdot r
      | [] => [c]
      end
  end.

Definition unnamed_file : str := lit "unnamed_file".

Definition sanitizeFilename (filename : str) : str :=
  if negb (truthy filename) then unnamed_file
  else substring0 255 (trim (replace_dotdot (replace_hostile filename))).

(* ===================================================================== *)
(** ** Node's [path] module (POSIX flavour), as used by server.js

    [extname] and [basename] scan the path from its last character to its
    first, keeping their loop variables in a record; [-1] is the usual
    sentinel for an index that is not set. *)
(* ===================================================================== *)

Module path.

Record ExtState := mkExt {
  startDot : Z;
  startPart : Z;
  ext_end : Z;
  ext_matchedSlash : bool;
  preDotState : Z
}.

(** One pass of the [for (i = path.length - 1; i >= 0; --i)] loop of
    [extname]; [n] is [i + 1]. *)
Fixpoint extname_loop (p : str) (n : nat) (st : ExtState) : ExtState :=
  match n with
  | O => st
  | S i =>
      let code := charCodeAt p i in
      if (code =? SLASH)%N then
        if negb (ext_matchedSlash st)
        then mkExt (startDot st) (Z.of_nat i + 1) (ext_end st)
                   (ext_matchedSlash st) (preDotState st)   (* break *)
        else extname_loop p i st                            (* continue *)
      else
        let st1 :=
          if ext_end st =? -1
          then mkExt (startDot st) (startPart st) (Z.of_nat i + 1) false
                     (preDotState st)
          else st in
        let st2 :=
          if (code =? DOT)%N then
            if startDot st1 =? -1
            then mkExt (Z.of_nat i) (startPart st1) (ext_end st1)
                       (ext_matchedSlash st1) (preDotState st1)
            else if negb (preDotState st1 =? 1)
            then mkExt (startDot st1) (startPart st1) (ext_end st1)
                       (ext_matchedSlash st1) 1
            else st1
          else if negb (startDot st1 =? -1)
          then mkExt (startDot st1) (startPart st1) (ext_end st1)
                     (ext_matchedSlash st1) (-1)
          else st1 in
        extname_loop p i st2
  end.

Definition extname (p : str) : str :=
  let st := extname_loop p (length p) (mkExt (-1) 0 (-1) true 0) in
  if (startDot st =? -1) || (ext_end st =? -1) || (preDotState st =? 0)
     || ((preDotState st =? 1) && (startDot st =? ext_end st - 1)
         && (startDot st =? startPart st + 1))
  then []
  else slice p (startDot st) (ext_end st).

Record BaseState := mkBase {
  start : Z;
  base_end : Z;
  base_matchedSlash : bool;
  extIdx : Z;
  firstNonSlashEnd : Z
}.

(** The loop of [basename] taken when a non-empty suffix no longer than
    the path is given. *)
Fixpoint basename_suffix_loop (p suffix : str) (n : nat) (st : BaseState)
  : BaseState :=
  match n with
  | O => st
  | S i =>
      let code := charCodeAt p i in
      if (code =? SLASH)%N then
        if negb (base_matchedSlash st)
        then mkBase (Z.of_nat i + 1) (base_end st) (base_matchedSlash st)
                    (extIdx st) (firstNonSlashEnd st)        (* break *)
        else basename_suffix_loop p suffix i st
      else
        let st1 :=
          if firstNonSlashEnd st =? -1
          then mkBase (start st) (base_end st) false (extIdx st)
                      (Z.of_nat i + 1)
          else st in
        let st2 :=
          if 0 <=? extIdx st1 then
            if (code =? charCodeAt suffix (Z.to_nat (extIdx st1)))%N then
              let e := extIdx st1 - 1 in
              if e =? -1
              then mkBase (start st1) (Z.of_nat i) (base_matchedSlash st1) e
                          (firstNonSlashEnd st1)
              else mkBase (start st1) (base_end st1) (base_matchedSlash st1)
                          e (firstNonSlashEnd st1)
            else mkBase (start st1) (firstNonSlashEnd st1)
                        (base_matchedSlash st1) (-1) (firstNonSlashEnd st1)
          else st1 in
        basename_suffix_loop p suffix i st2
  end.

(** The loop of [basename] taken otherwise. *)
Fixpoint basename_plain_loop (p : str) (n : nat) (st : BaseState)
  : BaseState :=
  match n with
  | O => st
  | S i =>
      if (charCodeAt p i =? SLASH)%N then
        if negb (base_matchedSlash st)
        then mkBase (Z.of_nat i + 1) (base_end st) (base_matchedSlash st)
                    (extIdx st) (firstNonSlashEnd st)        (* break *)
        else basename_plain_loop p i st
      else if base_end st =? -1
      then basename_plain_loop p i
             (mkBase (start st) (Z.of_nat i + 1) false (extIdx st)
                     (firstNonSlashEnd st))
      else basename_plain_loop p i st
  end.

(** [path.basename(p, suffix)] *)
Definition basename (p suffix : str) : str :=
  let plen := Z.of_nat (length p) in
  let slen := Z.of_nat (length suffix) in
  if (0 <? slen) && (slen <=? plen) then
    if bool_decide (suffix = p) then []
    else
      let st := basename_suffix_loop p suffix (length p)
                  (mkBase 0 (-1) true (slen - 1) (-1)) in
      let e := if start st =? base_end st then firstNonSlashEnd st
               else if base_end st =? -1 then plen
               else base_end st in
      slice p (start st) e
  else
    let st := basename_plain_loop p (length p) (mkBase 0 (-1) true 0 (-1)) in
    if base_end st =? -1 then [] else slice p (start st) (base_end st).

End path.

(* ===================================================================== *)
(** ** The upload directory and the effects of the asynchronous code *)
(* ===================================================================== *)

(** What [fs.stat] reports about an entry, as far as the two programs read
    it.  Times are in milliseconds since the epoch, sizes in bytes; both
    are taken as integers. *)
Record Stats := mkStats {
  isFile : bool;
  mtimeMs : Z;
  size : Z
}.

(** The upload directory: entry name to its stats.  The path
    [path.join(config.uploadDir, name)] is represented by [name]; the
    names the server joins are upload identifiers and the names built from
    them, which hold no separator. *)
Abbreviation Dir := (gmap str Stats).

(** The errors of the file system: no such entry, the entry is a
    directory, and [EIO] for every other refusal (no permission, read-only
    file system, name too long, failing disk). *)
Inductive Errno := ENOENT | EISDIR | EIO.

(** One constructor per logging call of the two programs. *)
Inductive LogEvent :=
| LogDiskSpace (free : Z)                 (* debug: Disk space: ... free *)
| LogLowDiskSpace (free : Z)              (* error: Low disk space *)
| LogDiskSpaceError (e : Errno)           (* error: Error checking disk space *)
| LogCleanedUp (uploadId : str)           (* info: Cleaned up upload *)
| LogCleanupError (uploadId : str) (e : Errno)
| LogUploadFinished (uploadId : str)      (* info: Upload finished *)
| LogUploadSize (bytes : Z)               (* info: Upload size *)
| LogRenamed (newFileName : str)          (* info: File renamed to *)
| LogRenameError (uploadId : str) (e : Errno) (* error: Error in rename for *)
| LogUploadCreated (uploadId : str)       (* info: Upload created *)
| LogTusHandlerError (e : Errno)          (* error: TUS Handler Error *)
| ConsoleCleaning                         (* Cleaning up files older than *)
| ConsoleDeleted (file : str) (bytes : Z) (* Deleted: file (size) *)
| ConsoleSummary (deletedCount freedSpace : Z)
| ConsoleCleanupFailed (e : Errno).
(* The sizes are the numbers the messages are built from: the text shows
   them in MB or GB with two decimals. *)

Definition is_error_level (ev : LogEvent) : bool :=
  match ev with
  | LogLowDiskSpace _ | LogDiskSpaceError _ | LogCleanupError _ _
  | LogRenameError _ _ | LogTusHandlerError _ | ConsoleCleanupFailed _ => true
  | _ => false
  end.

(** The mutable world: the upload directory, the log written so far, and
    the hit counters of the rate limiter (client key to hits and the time
    the window resets). *)
Record World := mkWorld {
  dir : Dir;
  log : list LogEvent;
  hits : gmap str (Z * Z)
}.

(** What the code can only observe: the clock, the free space the disk
    probe reports ([None]: the probe throws), and what the operating system
    refuses for a reason other than a missing entry: the [stat] and the
    [rename] of finalization (target is a directory, name too long, I/O
    error), and the [unlink] of a given name (no permission, read-only file
    system, I/O error). *)
Record Env := mkEnv {
  now : Z;
  diskFree : option Z;
  stat_fault : bool;
  rename_fault : bool;
  unlink_fault : str → bool
}.

(** The longest name a directory entry can have on the usual file systems
    (ext4, xfs, btrfs, tmpfs, APFS), in bytes; a code unit takes at least
    one byte, so a name of more code units than this is refused with
    ENAMETOOLONG. *)
Definition NAME_MAX : nat := 255.

Definition name_too_long (name : str) : bool := (NAME_MAX <? length name)%nat.

Inductive Res (A : Type) :=
| Ok (a : A)
| Throw (e : Errno).
Arguments Ok {A} a.
Arguments Throw {A} e.

(** A promise that has been awaited: it runs in a world, and returns a
    value or rejects. *)
Definition M (A : Type) : Type := World → Res A * World.

Definition ret {A} (a : A) : M A := fun w => (Ok a, w).

Definition bind {A B} (k : A → M B) (m : M A) : M B :=
  fun w => match m w with
           | (Ok a, w') => k a w'
           | (Throw e, w') => (Throw e, w')
           end.

#[global] Instance M_ret : MRet M := @ret.
#[global] Instance M_bind : MBind M := @bind.

Definition throw {A} (e : Errno) : M A := fun w => (Throw e, w).

(** [try { m } catch (error) { h error }] *)
Definition try_catch {A} (m : M A) (h : Errno → M A) : M A :=
  fun w => match m w with
           | (Ok a, w') => (Ok a, w')
           | (Throw e, w') => h e w'
           end.

(** [promise.catch(() => {})] *)
Definition swallow (m : M unit) : M unit := try_catch m (fun _ => ret tt).

(** [Promise.allSettled]: every promise runs to its end, none of their
    rejections is propagated. *)
Fixpoint allSettled (ps : list (M unit)) : M (list (Res unit)) :=
  match ps with
  | [] => ret []
  | p :: rest =>
      fun w => match p w with
               | (r, w') => (rs ← allSettled rest; ret (r :: rs)) w'
               end
  end.

Definition logger (ev : LogEvent) : M unit :=
  fun w => (Ok tt, mkWorld (dir w) (log w ++ [ev]) (hits w)).

Definition set_dir (d : Dir) : M unit :=
  fun w => (Ok tt, mkWorld d (log w) (hits w)).

Definition get_dir : M Dir := fun w => (Ok (dir w), w).

(** [fsPromises.stat(name)] *)
Definition stat (fault : bool) (name : str) : M Stats :=
  d ← get_dir;
  match d !! name with
  | None => throw ENOENT
  | Some st => if fault then throw EIO else ret st
  end.

(** [fsPromises.rename(old, new)]: the entry moves, replacing what the new
    name held; [fault] says that the system refuses, as it does when the
    new name is too long ([name_too_long]) or is that of a directory. *)
Definition rename (fault : bool) (old new : str) : M unit :=
  d ← get_dir;
  match d !! old with
  | None => throw ENOENT
  | Some st => if fault then throw EIO
               else set_dir (<[new := st]> (delete old d))
  end.

(** [fsPromises.unlink(name)]: removes a file; a missing entry and a
    directory are errors, and so is whatever else the system refuses. *)
Definition unlink (fault : bool) (name : str) : M unit :=
  d ← get_dir;
  match d !! name with
  | None => throw ENOENT
  | Some st => if fault then throw EIO
               else if isFile st then set_dir (delete name d)
               else throw EISDIR
  end.

(** [fs.readdir(dir)]: the names of the entries, in the order the file
    system lists them ([order] rearranges the names); it fails when the
    directory is missing or cannot be read. *)
Definition readdir (fails : bool) (order : list str → list str)
  : M (list str) :=
  d ← get_dir;
  if fails then throw ENOENT else ret (order (map fst (map_to_list d))).

(** A name of an entry of a directory: one path segment, neither empty nor
    a dot name; [path.join(directory, name)] then denotes that entry. *)
Definition entry_name (name : str) : Prop :=
  name ≠ [] ∧ (SLASH ∉ name) ∧ name ≠ lit "." ∧ name ≠ lit "..".

(** A regular file is stored under [name]. *)
Definition file_at (d : Dir) (name : str) : Prop :=
  ∃ st, d !! name = Some st ∧ isFile st = true.

(* ===================================================================== *)
(** ** server.js: configuration, disk probe, cleanup and finalization *)
(* ===================================================================== *)

Record Config := mkConfig {
  host : str;
  port : num;
  uploadDir : str;
  maxFileSize : num;
  minFreeSpace : num;
  chunkSize : num;
  allowedExtensions : option (list str);
  corsOrigin : str;
  uploadTimeout : num
}.

(** [s.split(',')] *)
Fixpoint split_comma (s : str) : list str :=
  match s with
  | [] => [[]]
  | c :: r =>
      if (c =? 44)%N then [] :: split_comma r
      else match split_comma r with
           | [] => [[c]]
           | w :: ws => (c :: w) :: ws
           end
  end.

(** The [allowedExtensions] entry of [config], from the environment
    variable ([None]: the variable is not set). *)
Definition parseAllowedExtensions (v : option str) : option (list str) :=
  match v with
  | None => None
  | Some s =>
      if bool_decide (s = lit "*") then None
      else Some (filter (fun x => truthy x = true) (split_comma s))
  end.

(** The configuration with no environment variable set; the upload
    directory is [uploads] beside server.js. *)
Definition default_config : Config :=
  mkConfig (lit "0.0.0.0") 3000 (lit "uploads")
           10737418240 5368709120 5242880
           (parseAllowedExtensions None) (lit "*") 3600000.

(** [checkDiskSpace(config.uploadDir)] *)
Definition checkDiskSpace (env : Env) : M Z :=
  match diskFree env with
  | Some free => ret free
  | None => throw EIO
  end.

Definition checkAvailableSpace (config : Config) (env : Env) : M bool :=
  try_catch
    (freeSpace ← checkDiskSpace env;
     logger (LogDiskSpace freeSpace);;
     if num_lt (Num freeSpace) (minFreeSpace config)
     then logger (LogLowDiskSpace freeSpace);; ret false
     else ret true)
    (fun error => logger (LogDiskSpaceError error);; ret false).

(** [filePath + '.json'] *)
Definition metadata_name (uploadId : str) : str := uploadId ++ lit ".json".

Definition cleanupUpload (env : Env) (uploadId : str) : M unit :=
  let filePath := uploadId in
  let metadataPath := metadata_name filePath in
  try_catch
    (allSettled [swallow (unlink (unlink_fault env filePath) filePath);
                 swallow (unlink (unlink_fault env metadataPath)
                                 metadataPath)];;
     logger (LogCleanedUp uploadId))
    (fun error => logger (LogCleanupError uploadId error)).

(** Client-supplied metadata: keys to string values or [null]. *)
Abbreviation Metadata := (gmap str (option str)).

(** The upload object the tus server hands to its hooks. *)
Record Upload := mkUpload {
  id : str;
  upload_size : Z;
  offset : Z;
  metadata : option Metadata
}.

(** [metaData?.filename ? sanitizeFilename(metaData.filename) : 'unnamed_file']
    with [metaData = upload?.metadata || {}] *)
Definition finalFileName (upload : Upload) : str :=
  let metaData := default ∅ (metadata upload) in
  match metaData !! lit "filename" with
  | Some (Some filename) =>
      if truthy filename then sanitizeFilename filename else unnamed_file
  | _ => unnamed_file
  end.

Definition newFileName (upload : Upload) : str :=
  let fileName := finalFileName upload in
  let extension := path.extname fileName in
  let baseName := path.basename fileName extension in
  let hashedFileName := id upload in
  if truthy extension
  then baseName ++ lit "--" ++ hashedFileName ++ extension
  else baseName ++ lit "--" ++ hashedFileName.

(** The body of the timer callback of [onUploadFinish]; it runs half a
    second after the hook returned, in whatever state the directory is
    then. *)
Definition finalize (config : Config) (env : Env) (upload : Upload) : M unit :=
  let uploadId := id upload in
  try_catch
    (let oldFilePath := uploadId in
     let newFilePath := newFileName upload in
     let metadataPath := metadata_name oldFilePath in
     stats ← stat (stat_fault env) oldFilePath;
     logger (LogUploadSize (size stats));;
     rename (rename_fault env) oldFilePath newFilePath;;
     swallow (unlink (unlink_fault env metadataPath) metadataPath);;
     logger (LogRenamed (newFileName upload)))
    (fun error =>
       logger (LogRenameError uploadId error);;
       cleanupUpload env uploadId).

(** [onUploadFinish]: logs, arms the timer and returns.  The timer is
    returned as its delay in milliseconds and its callback, which runs in
    the environment of the moment it fires. *)
Definition onUploadFinish (config : Config) (upload : Upload)
  : M (Z * (Env → M unit)) :=
  logger (LogUploadFinished (id upload));;
  ret (500, fun env => finalize config env upload).

(** The two steps of finalization that can fail, on their own. *)
Definition stat_then_rename (env : Env) (upload : Upload) : M unit :=
  stat (stat_fault env) (id upload);;
  rename (rename_fault env) (id upload) (newFileName upload).

(* ===================================================================== *)
(** ** server.js: the rate limiter and the upload route

    [express-rate-limit] and [@tus/server] are dependencies; what is
    modelled of them is the part the options of server.js select:
    the limiter's skip test, its counting per client key and window, and
    the creation request of the tus server with its optional hooks. *)
(* ===================================================================== *)

Record Request := mkRequest {
  method : str;
  ip : str;
  uploadLength : option Z;
  uploadMetadata : option Metadata
}.

(** The answer: its status code and, of the [Location] header, the path
    (the server sends it as an absolute URL on the host of the request). *)
Record Response := mkResponse {
  status : Z;
  location : option str
}.

Record RateLimitOptions := mkRateLimit {
  windowMs : Z;
  max : Z;
  skip : Request → bool
}.

Definition uploadCreationLimiter : RateLimitOptions :=
  mkRateLimit (15 * 60 * 1000) 50
              (fun req => negb (bool_decide (method req = lit "POST"))).

(** The store of the limiter: one more hit for the key, in a window that
    starts with the key's first hit. *)
Definition increment (o : RateLimitOptions) (env : Env) (key : str) : M Z :=
  fun w =>
    let totalHits :=
      match hits w !! key with
      | Some (n, resetTime) => if resetTime <=? now env then 1 else n + 1
      | None => 1
      end in
    let resetTime :=
      match hits w !! key with
      | Some (n, resetTime) =>
          if resetTime <=? now env then now env + windowMs o else resetTime
      | None => now env + windowMs o
      end in
    (Ok totalHits,
     mkWorld (dir w) (log w) (<[key := (totalHits, resetTime)]> (hits w))).

(** The middleware [rateLimit(options)], given the rest of the chain. *)
Definition rateLimit (o : RateLimitOptions) (env : Env) (req : Request)
    (next : M Response) : M Response :=
  if skip o req then next
  else
    totalHits ← increment o env (ip req);
    if max o <? totalHits then ret (mkResponse 429 None) else next.

(** The options of the tus server; a hook that is not given is [None]. *)
Record ServerOptions := mkServerOptions {
  maxSize : num;
  opt_onUploadCreate : option (Request → Upload → M unit);
  opt_onUploadFinish : option (Upload → M (Z * (Env → M unit)))
}.

Definition tusServerOptions (config : Config) : ServerOptions :=
  mkServerOptions (maxFileSize config) None (Some (onUploadFinish config)).

Section TusServer.

(** What the tus server does on its own: naming a new upload, the size of
    the record it stores beside the partial file, and its handling of the
    requests other than the creation of an upload of a positive length. *)
Variable namingFunction : Request → str.
Variable sidecar_bytes : Upload → Z.
Variable handle_other : Request → M Response.

(** [FileStore.create]: an empty partial file and its metadata record. *)
Definition store_create (env : Env) (upload : Upload) : M unit :=
  d ← get_dir;
  set_dir (<[metadata_name (id upload) :=
               mkStats true (now env) (sidecar_bytes upload)]>
           (<[id upload := mkStats true (now env) 0]> d)).

(** The creation request. *)
Definition tus_post (opts : ServerOptions) (env : Env) (req : Request)
  : M Response :=
  match uploadLength req with
  | None => ret (mkResponse 400 None)
  | Some len =>
      if negb (0 <? len) then handle_other req
      else if num_lt 0 (maxSize opts) && num_lt (maxSize opts) len
      then ret (mkResponse 413 None)
      else
        let upload := mkUpload (namingFunction req) len 0
                               (uploadMetadata req) in
        match opt_onUploadCreate opts with
        | Some hook => hook req upload
        | None => ret tt
        end;;
        store_create env upload;;
        logger (LogUploadCreated (id upload));;   (* EVENTS.POST_CREATE *)
        ret (mkResponse 201 (Some (lit "/files/" ++ id upload)))
  end.

Definition tusServer_handle (opts : ServerOptions) (env : Env)
    (req : Request) : M Response :=
  if bool_decide (method req = lit "POST") then tus_post opts env req
  else handle_other req.

Definition tusHandler (config : Config) (env : Env) (req : Request)
  : M Response :=
  try_catch
    (tusServer_handle (tusServerOptions config) env req)
    (fun error =>
       logger (LogTusHandlerError error);;
       ret (mkResponse 500 None)).

(** [uploadApp]: the limiter, then the tus handler on every route. *)
Definition uploadApp (config : Config) (env : Env) (req : Request)
  : M Response :=
  rateLimit uploadCreationLimiter env req (tusHandler config env req).

End TusServer.

(* ===================================================================== *)
(** ** scripts/cleanup.js *)
(* ===================================================================== *)

Module cleanup.

Definition MAX_AGE_DAYS : Z := 30.
Definition MAX_AGE_MS : Z := MAX_AGE_DAYS * 24 * 60 * 60 * 1000.

Definition gitkeep : str := lit ".gitkeep".

(** [UPLOAD_DIR]: the directory [uploads] beside server.js, whatever the
    environment says; it is written as the default of [config.uploadDir]
    is. *)
Definition UPLOAD_DIR : str := lit "uploads".

Inductive Exit := Returned | Exited (code : Z).

(** What the file system does to a run of the script: whether [readdir]
    fails, the order it lists the names in, and the names whose [stat] and
    whose [unlink] it refuses. *)
Record Platform := mkPlatform {
  readdir_fails : bool;
  listing : list str → list str;
  stat_fails : str → bool;
  unlink_fails : str → bool
}.

(** The [for (const file of files)] loop, with its two counters. *)
Fixpoint sweep (p : Platform) (now : Z) (files : list str)
    (deletedCount freedSpace : Z) : M (Z * Z) :=
  match files with
  | [] => ret (deletedCount, freedSpace)
  | file :: rest =>
      if bool_decide (file = gitkeep)
      then sweep p now rest deletedCount freedSpace        (* continue *)
      else
        stats ← stat (stat_fails p file) file;
        if isFile stats then
          let age := now - mtimeMs stats in
          if MAX_AGE_MS <? age then
            let sz := size stats in
            unlink (unlink_fails p file) file;;
            logger (ConsoleDeleted file sz);;
            sweep p now rest (deletedCount + 1) (freedSpace + sz)
          else sweep p now rest deletedCount freedSpace
        else sweep p now rest deletedCount freedSpace
  end.

(** The script; the world it runs in holds the directory at [UPLOAD_DIR]. *)
Definition cleanupOldFiles (p : Platform) (now : Z) : M Exit :=
  try_catch
    (logger ConsoleCleaning;;
     files ← readdir (readdir_fails p) (listing p);
     '(deletedCount, freedSpace) ← sweep p now files 0 0;
     logger (ConsoleSummary deletedCount freedSpace);;
     ret Returned)
    (fun error =>
       logger (ConsoleCleanupFailed error);;
       ret (Exited 1)).                                 (* process.exit(1) *)

(** How a run on the directory [d] ends, and the directory it leaves. *)
Definition outcome (p : Platform) (now : Z) (d : Dir) : Res Exit :=
  (cleanupOldFiles p now (mkWorld d [] ∅)).1.

Definition swept (p : Platform) (now : Z) (d : Dir) : Dir :=
  dir (cleanupOldFiles p now (mkWorld d [] ∅)).2.

(** The directory the script works on, given the server's upload directory
    and what lies at [UPLOAD_DIR] when the server is configured to store
    elsewhere. *)
Definition directory (config : Config) (server_uploads elsewhere : Dir)
  : Dir :=
  if bool_decide (uploadDir config = UPLOAD_DIR) then server_uploads
  else elsewhere.

(** A file system that lists every name once. *)
Definition lists_all (p : Platform) : Prop :=
  ∀ names, listing p names ≡ₚ names.

End cleanup.

(** The statuses of an upload in the specification's data model. *)
Inductive UploadStatus := Created | Receiving | Completed | Aborted | Expired.

(* ===================================================================== *)
(** ** Vocabulary of the statements *)
(* ===================================================================== *)

(** A decidable reading of: [s] holds no two dots in a row. *)
Fixpoint dotdot_free (s : str) : bool :=
  match s with
  | [] => true
  | c :: r =>
      match r with
      | d :: _ => negb ((c =? DOT)%N && (d =? DOT)%N) && dotdot_free r
      | [] => true
      end
  end.

(** Number of dashes of a string. *)
Definition dashes (s : str) : nat := length (filter (fun c => c = DASH) s).

(** The directory without the regular file [name], if there is one. *)
Definition without_file (name : str) (d : Dir) : Dir :=
  match d !! name with
  | Some st => if isFile st then delete name d else d
  | None => d
  end.

(** What [unlink(name).catch(() => {})] leaves of the directory. *)
Definition unlinked (fault : bool) (name : str) (d : Dir) : Dir :=
  if fault then d else without_file name d.

(** The test the loop of the sweep applies to an entry. *)
Definition expired (now : Z) (name : str) (st : Stats) : bool :=
  negb (bool_decide (name = cleanup.gitkeep))
  && isFile st
  && (cleanup.MAX_AGE_MS <? now - mtimeMs st).

(** The expiry rule in the words of the specification: an entry goes when
    it is not the placeholder, the upload it belongs to is not Completed,
    and its last activity is older than the maximum age.  [status] gives the
    status of the upload an entry belongs to. *)
Definition spec_expiry_rule (status : str → UploadStatus) (maxAge now : Z)
    (name : str) (st : Stats) : Prop :=
  name ≠ cleanup.gitkeep ∧ status name ≠ Completed ∧ now - mtimeMs st > maxAge.

(** *** Sample data *)

Module Sample.

(** An upload of 1024 bytes named [abc], complete on disk, with its
    metadata record. *)
Definition stored : Dir :=
  <[lit "abc.json" := mkStats true 0 120]>
    (<[lit "abc" := mkStats true 0 1024]> ∅).

Definition world : World := mkWorld stored [] ∅.

Definition upload_named (filename : str) : Upload :=
  mkUpload (lit "abc") 1024 1024
           (Some (<[lit "filename" := Some filename]> ∅)).

Definition upload_unnamed : Upload := mkUpload (lit "abc") 1024 1024 None.

(** No fault, and a full disk: no byte free. *)
Definition env_full_disk : Env :=
  mkEnv 1000 (Some 0) false false (fun _ => false).

(** The rename step fails. *)
Definition env_rename_fails : Env :=
  mkEnv 1000 (Some 0) false true (fun _ => false).

(** The partial file cannot be unlinked (it has been made immutable,
    say); nothing else fails. *)
Definition env_unlink_refused : Env :=
  mkEnv 1000 (Some 0) false false (fun name => bool_decide (name = lit "abc")).

(** The file system has turned read-only: renaming and unlinking fail. *)
Definition env_read_only : Env :=
  mkEnv 1000 (Some 0) false true (fun _ => true).

(** A file system whose only refusal is that of a name longer than
    [NAME_MAX], at the rename of the upload. *)
Definition env_name_limit (upload : Upload) : Env :=
  mkEnv 1000 (Some 0) false (name_too_long (newFileName upload))
        (fun _ => false).

(** An upload under an identifier as the tus server makes them, whose
    client named it with 250 letters and an extension. *)
Definition hex_id : str := lit "0123456789abcdef0123456789abcdef".

Definition long_filename : str := replicate 250 97%N ++ lit ".pdf".

Definition upload_long : Upload :=
  mkUpload hex_id 1024 1024
           (Some (<[lit "filename" := Some long_filename]> ∅)).

Definition world_long : World :=
  mkWorld (<[hex_id ++ lit ".json" := mkStats true 0 400]>
             (<[hex_id := mkStats true 0 1024]> ∅)) [] ∅.

(** A file system that fails nothing and lists the names as they come. *)
Definition quiet : cleanup.Platform :=
  cleanup.mkPlatform false (fun names => names) (fun _ => false)
                     (fun _ => false).

(** [ALLOWED_EXTENSIONS] set to [.jpg,.png,jpg,png]. *)
Definition config_images_only : Config :=
  mkConfig (lit "0.0.0.0") 3000 (lit "uploads")
           10737418240 5368709120 5242880
           (parseAllowedExtensions (Some (lit ".jpg,.png,jpg,png")))
           (lit "*") 3600000.

(** The directory once [report.pdf] is finalized. *)
Definition finalized : Dir :=
  dir (finalize default_config env_full_disk
         (upload_named (lit "report.pdf")) world).2.

(** The status of the uploads behind the entries of [finalized]. *)
Definition status_of (name : str) : UploadStatus :=
  if bool_decide (name = lit "report--abc.pdf") then Completed
  else Receiving.

Definition create_request : Request :=
  mkRequest (lit "POST") (lit "203.0.113.7") (Some 1024) None.

Definition patch_request : Request :=
  mkRequest (lit "PATCH") (lit "203.0.113.7") None None.

(** The limiter has seen a thousand creations from the client in the
    running window. *)
Definition throttled : World :=
  mkWorld stored [] (<[lit "203.0.113.7" := (1000, 900000)]> ∅).

End Sample.

(* ===================================================================== *)
(** ** server.js: the health route *)
(* ===================================================================== *)

Inductive HealthStatus := healthy | degraded | health_error.

(** The status code and the [status] field of the JSON body. *)
Record HealthResponse := mkHealth {
  health_code : Z;
  health_status : HealthStatus
}.

(** The handler of [GET /health]; the error it logs, if any, is returned
    beside the response.  The only call that can throw inside its [try] is
    the disk probe. *)
Definition health (config : Config) (env : Env)
  : HealthResponse * option Errno :=
  match diskFree env with        (* await checkDiskSpace(config.uploadDir) *)
  | Some free =>
      let hasSpace := num_ge free (minFreeSpace config) in
      (mkHealth (if hasSpace then 200 else 503)
                (if hasSpace then healthy else degraded), None)
  | None => (mkHealth 503 health_error, Some EIO)
  end.

(* ===================================================================== *)
(** ** server.js: start-up

    The start-up code runs before any upload exists; what it can observe
    is whether the two directories are there and whether the upload
    directory takes a new file. *)
(* ===================================================================== *)

Module startup.

Inductive Failure :=
| Missing           (* access, writeFile, unlink: no such entry *)
| CannotCreate      (* mkdir fails *)
| NotWritable       (* writeFile fails to open: no permission *)
| IsDirectory       (* writeFile fails to open: the name is a directory *)
| NoSpace           (* writeFile fails to write: no space left *)
| CannotUnlink.     (* unlink is refused *)

Inductive Event :=
| UploadDirExists                  (* info: Upload directory exists *)
| UploadDirCreated                 (* info: Created upload directory *)
| UploadDirWritable                (* info: Upload directory is writable *)
| UploadDirNotWritable (e : Failure) (* error: Upload directory is NOT writable *)
| LogsDirCreated                   (* info: Created logs directory *)
| ServerRunning.                   (* info: Server running at *)

(** The disk at start-up: the upload directory ([None]: missing), whether
    a file can be opened for writing in it, whether the disk has no room
    left for data, whether the system refuses to unlink the test file,
    whether the logs directory is there, whether a missing directory can
    be made; then what was logged and whether the server listens. *)
Record Disk := mkDisk {
  uploads : option Dir;
  uploads_writable : bool;
  disk_full : bool;
  unlink_refused : bool;
  logs_exists : bool;
  can_mkdir : bool;
  events : list Event;
  listening : bool
}.

Inductive Outcome (A : Type) :=
| Done (a : A)
| Rejected (e : Failure).
Arguments Done {A} a.
Arguments Rejected {A} e.

Definition Boot (A : Type) : Type := Disk → Outcome A * Disk.

Definition boot_ret {A} (a : A) : Boot A := fun d => (Done a, d).

Definition boot_bind {A B} (k : A → Boot B) (m : Boot A) : Boot B :=
  fun d => match m d with
           | (Done a, d') => k a d'
           | (Rejected e, d') => (Rejected e, d')
           end.

#[global] Instance Boot_ret : MRet Boot := @boot_ret.
#[global] Instance Boot_bind : MBind Boot := @boot_bind.

Definition boot_throw {A} (e : Failure) : Boot A := fun d => (Rejected e, d).

Definition boot_try {A} (m : Boot A) (h : Failure → Boot A) : Boot A :=
  fun d => match m d with
           | (Done a, d') => (Done a, d')
           | (Rejected e, d') => h e d'
           end.

Definition info (ev : Event) : Boot unit :=
  fun d => (Done tt, mkDisk (uploads d) (uploads_writable d) (disk_full d)
                            (unlink_refused d) (logs_exists d) (can_mkdir d)
                            (events d ++ [ev]) (listening d)).

(** The disk with other entries in its upload directory. *)
Definition with_entries (entries : Dir) (d : Disk) : Disk :=
  mkDisk (Some entries) (uploads_writable d) (disk_full d) (unlink_refused d)
         (logs_exists d) (can_mkdir d) (events d) (listening d).

Definition write_test : str := lit ".write-test".

(** [fsPromises.access(config.uploadDir)] *)
Definition access_uploads : Boot unit :=
  fun d => match uploads d with
           | Some _ => (Done tt, d)
           | None => (Rejected Missing, d)
           end.

(** [fsPromises.mkdir(config.uploadDir, { recursive: true })]: a directory
    that is there is left alone; a new one is empty and takes files. *)
Definition mkdir_uploads : Boot unit :=
  fun d => match uploads d with
           | Some _ => (Done tt, d)
           | None =>
               if can_mkdir d
               then (Done tt, mkDisk (Some ∅) true (disk_full d)
                                     (unlink_refused d) (logs_exists d)
                                     (can_mkdir d) (events d) (listening d))
               else (Rejected CannotCreate, d)
           end.

(** [fsPromises.writeFile(testFile, 'test')] at time [clock]: the file is
    opened, which creates it or empties it, and then the four bytes are
    written. *)
Definition writeFile_test (clock : Z) : Boot unit :=
  fun d => match uploads d with
           | None => (Rejected Missing, d)
           | Some entries =>
               if negb (uploads_writable d) then (Rejected NotWritable, d)
               else if match entries !! write_test with
                       | Some st => negb (isFile st)
                       | None => false
                       end
               then (Rejected IsDirectory, d)
               else if disk_full d
               then (Rejected NoSpace,
                     with_entries (<[write_test := mkStats true clock 0]>
                                     entries) d)
               else (Done tt,
                     with_entries (<[write_test := mkStats true clock 4]>
                                     entries) d)
           end.

(** [fsPromises.unlink(testFile)] *)
Definition unlink_test : Boot unit :=
  fun d => match uploads d with
           | None => (Rejected Missing, d)
           | Some entries =>
               match entries !! write_test with
               | Some st =>
                   if unlink_refused d then (Rejected CannotUnlink, d)
                   else if isFile st
                   then (Done tt, with_entries (delete write_test entries) d)
                   else (Rejected IsDirectory, d)
               | None => (Rejected Missing, d)
               end
           end.

Definition ensureUploadDir (clock : Z) : Boot unit :=
  boot_try (access_uploads;; info UploadDirExists)
           (fun _ => mkdir_uploads;; info UploadDirCreated);;
  boot_try (writeFile_test clock;;
            unlink_test;;
            info UploadDirWritable)
           (fun error => info (UploadDirNotWritable error);;
                         boot_throw error).

(** [fsPromises.access(logsDir)] and [fsPromises.mkdir(logsDir, ...)] *)
Definition access_logs : Boot unit :=
  fun d => if logs_exists d then (Done tt, d) else (Rejected Missing, d).

Definition mkdir_logs : Boot unit :=
  fun d => if logs_exists d then (Done tt, d)
           else if can_mkdir d
           then (Done tt, mkDisk (uploads d) (uploads_writable d)
                                 (disk_full d) (unlink_refused d) true
                                 (can_mkdir d) (events d) (listening d))
           else (Rejected CannotCreate, d).

Definition ensureLogsDir : Boot unit :=
  boot_try access_logs (fun _ => mkdir_logs;; info LogsDirCreated).

(** [http.createServer(app).listen(...)] with its callback. *)
Definition listen : Boot unit :=
  fun d => (Done tt, mkDisk (uploads d) (uploads_writable d) (disk_full d)
                            (unlink_refused d) (logs_exists d) (can_mkdir d)
                            (events d ++ [ServerRunning]) true).

Definition startServer (clock : Z) : Boot unit :=
  ensureLogsDir;;
  ensureUploadDir clock;;
  listen.

End startup.

(* ===================================================================== *)
(** ** Further vocabulary *)
(* ===================================================================== *)

Definition COMMA : N := 44.

(** [pieces.join(',')] *)
Fixpoint join_comma (pieces : list str) : str :=
  match pieces with
  | [] => []
  | [x] => x
  | x :: rest => x ++ COMMA :: join_comma rest
  end.

(** The entries of a directory under the given names, in their order. *)
Definition entries_of (d : Dir) (names : list str) : list (str * Stats) :=
  omap (fun name => pair name <$> d !! name) names.

(** The entries of a directory the sweep removes at [clock], in the order
    [readdir] lists them. *)
Definition expired_entries (p : cleanup.Platform) (clock : Z) (d : Dir)
  : list (str * Stats) :=
  filter (fun e => expired clock e.1 e.2 = true)
         (entries_of d (cleanup.listing p (map fst (map_to_list d)))).

Definition total_size (entries : list (str * Stats)) : Z :=
  foldr (fun e acc => size e.2 + acc) 0 entries.

(** The upload directory passes the start-up checks: it is there, takes
    files and its test name is free or a file, or it can be made; and the
    test file can be written and unlinked. *)
Definition uploads_usable (d : startup.Disk) : bool :=
  match startup.uploads d with
  | Some entries =>
      startup.uploads_writable d
      && match entries !! startup.write_test with
         | Some st => isFile st
         | None => true
         end
  | None => startup.can_mkdir d
  end
  && negb (startup.disk_full d)
  && negb (startup.unlink_refused d).

Definition logs_usable (d : startup.Disk) : bool :=
  startup.logs_exists d || startup.can_mkdir d.

(** A creation that goes through: the rest of the chain answers 201. *)
Definition created : M Response := ret (mkResponse 201 None).

(** The status codes a client gets for creation requests sent at the given
    times, one after the other, through the limiter. *)
Fixpoint creations (times : list Z) (req : Request) (w : World) : list Z :=
  match times with
  | [] => []
  | t :: rest =>
      match rateLimit uploadCreationLimiter
                      (mkEnv t None false false (fun _ => false)) req
                      created w with
      | (Ok r, w') => status r :: creations rest req w'
      | (Throw _, w') => creations rest req w'
      end
  end.

(* ===================================================================== *)
(** * Properties *)
(* ===================================================================== *)

(** ** Strings: pieces of a string *)

Section Infix.

Lemma infix_of_refl (s : str) : infix_of s s.
Proof. exists [], []. by rewrite app_nil_r. Qed.

Lemma infix_of_trans (r s t : str) :
  infix_of r s → infix_of s t → infix_of r t.
Proof.
  intros (a & b & ->) (c & d & ->).
  exists (c ++ a), (b ++ d). by rewrite !app_assoc.
Qed.

Lemma infix_of_take (n : nat) (s : str) : infix_of (take n s) s.
Proof. exists [], (drop n s). simpl. by rewrite take_drop. Qed.

Lemma infix_of_drop (n : nat) (s : str) : infix_of (drop n s) s.
Proof. exists (take n s), []. by rewrite app_nil_r, take_drop. Qed.

Lemma infix_of_trimStart (s : str) : infix_of (trimStart s) s.
Proof.
  induction s as [|c s IH]; simpl; [apply infix_of_refl|].
  destruct (is_white_space c); [|apply infix_of_refl].
  destruct IH as (a & b & E). exists (c :: a), b. simpl. by rewrite <- E.
Qed.

Lemma infix_of_rev (t s : str) : infix_of t s → infix_of (rev t) (rev s).
Proof.
  intros (a & b & ->). exists (rev b), (rev a).
  by rewrite !rev_app_distr, app_assoc.
Qed.

Lemma infix_of_trimEnd (s : str) : infix_of (trimEnd s) s.
Proof.
  unfold trimEnd. rewrite <- (rev_involutive s) at 2.
  apply infix_of_rev, infix_of_trimStart.
Qed.

Lemma infix_of_trim (s : str) : infix_of (trim s) s.
Proof.
  unfold trim.
  eapply infix_of_trans; [apply infix_of_trimEnd | apply infix_of_trimStart].
Qed.

Lemma infix_of_slice (s : str) (a b : Z) : infix_of (slice s a b) s.
Proof.
  unfold slice.
  eapply infix_of_trans; [apply infix_of_take | apply infix_of_drop].
Qed.

Lemma infix_of_nil (s : str) : infix_of [] s.
Proof. by exists [], s. Qed.

Lemma infix_of_elem (t s : str) (c : N) : infix_of t s → c ∈ t → c ∈ s.
Proof.
  intros (a & b & ->) H. apply elem_of_app. right.
  apply elem_of_app. by left.
Qed.

Lemma infix_of_includes (t s sub : str) :
  infix_of t s → includes t sub → includes s sub.
Proof. intros H1 H2. exact (infix_of_trans sub t s H2 H1). Qed.

Lemma infix_of_length (t s : str) :
  infix_of t s → (length t ≤ length s)%nat.
Proof. intros (a & b & ->). rewrite !length_app. lia. Qed.

End Infix.

(** ** sanitizeFilename *)

Lemma lit_dotdot : lit ".." = [DOT; DOT].
Proof. reflexivity. Qed.

Lemma dotdot_free_app (a b : str) :
  dotdot_free (a ++ DOT :: DOT :: b) = false.
Proof.
  induction a as [|x a IH]; [reflexivity|].
  change ((x :: a) ++ DOT :: DOT :: b) with (x :: (a ++ DOT :: DOT :: b)).
  cbn [dotdot_free]. rewrite IH.
  destruct (a ++ DOT :: DOT :: b) eqn:E; [by destruct a|].
  apply andb_false_r.
Qed.

Lemma dotdot_free_sound (s : str) :
  dotdot_free s = true → ¬ includes s (lit "..").
Proof.
  intros H (a & b & E). rewrite lit_dotdot in E. subst s.
  change ([DOT; DOT] ++ b) with (DOT :: DOT :: b) in H.
  by rewrite dotdot_free_app in H.
Qed.

Lemma replace_dotdot_head (s : str) :
  match replace_dotdot s with
  | [] => s = []
  | c :: _ => c = DASH ∨ ∃ r, s = c :: r
  end.
Proof.
  destruct s as [|c [|d r]]; simpl; eauto.
  destruct ((c =? DOT)%N && (d =? DOT)%N); eauto.
Qed.

Lemma replace_dotdot_cons2 (c d : N) (r : str) :
  replace_dotdot (c :: d :: r) =
  if (c =? DOT)%N && (d =? DOT)%N
  then DASH :: replace_dotdot r
  else c :: replace_dotdot (d :: r).
Proof. reflexivity. Qed.

Lemma dotdot_free_cons2 (c d : N) (r : str) :
  dotdot_free (c :: d :: r) =
  negb ((c =? DOT)%N && (d =? DOT)%N) && dotdot_free (d :: r).
Proof. reflexivity. Qed.

Lemma replace_dotdot_free_le (n : nat) (s : str) :
  (length s ≤ n)%nat → dotdot_free (replace_dotdot s) = true.
Proof.
  revert s. induction n as [|n IH]; intros s Hn.
  - destruct s; [done | simpl in Hn; lia].
  - destruct s as [|c [|d r]]; [done | done |].
    rewrite replace_dotdot_cons2.
    destruct ((c =? DOT)%N && (d =? DOT)%N) eqn:Ecd.
    + assert (Hr : dotdot_free (replace_dotdot r) = true)
        by (apply IH; simpl in *; lia).
      destruct (replace_dotdot r) as [|e t]; [done|].
      by rewrite dotdot_free_cons2, Hr.
    + assert (Hr : dotdot_free (replace_dotdot (d :: r)) = true)
        by (apply IH; simpl in *; lia).
      pose proof (replace_dotdot_head (d :: r)) as Hh.
      destruct (replace_dotdot (d :: r)) as [|e t]; [done|].
      rewrite dotdot_free_cons2, Hr, andb_true_r.
      destruct Hh as [->|[r' Er]].
      * apply negb_true_iff, andb_false_iff. by right.
      * injection Er as -> _. by rewrite Ecd.
Qed.

Lemma replace_dotdot_free (s : str) : dotdot_free (replace_dotdot s) = true.
Proof. by apply (replace_dotdot_free_le (length s)). Qed.

Lemma replace_dotdot_elem_le (n : nat) (s : str) (c : N) :
  (length s ≤ n)%nat → c ∈ replace_dotdot s → c = DASH ∨ c ∈ s.
Proof.
  revert s. induction n as [|n IH]; intros s Hn Hc.
  - destruct s; [by apply elem_of_nil in Hc | simpl in Hn; lia].
  - destruct s as [|x [|d r]]; [by apply elem_of_nil in Hc | by right |].
    rewrite replace_dotdot_cons2 in Hc.
    destruct ((x =? DOT)%N && (d =? DOT)%N).
    + apply elem_of_cons in Hc as [->|Hc]; [by left|].
      destruct (IH r ltac:(simpl in *; lia) Hc) as [?|?]; [by left|].
      right. apply elem_of_cons; right. by apply elem_of_cons; right.
    + apply elem_of_cons in Hc as [->|Hc]; [right; apply elem_of_cons; by left|].
      destruct (IH (d :: r) ltac:(simpl in *; lia) Hc) as [?|?]; [by left|].
      right. by apply elem_of_cons; right.
Qed.

Lemma replace_hostile_elem (s : str) (c : N) :
  c ∈ replace_hostile s → hostile c = false.
Proof.
  unfold replace_hostile. intros (x & -> & _)%list_elem_of_fmap.
  destruct (hostile x) eqn:E; [reflexivity | exact E].
Qed.

Lemma sanitizeFilename_truthy (filename : str) :
  truthy filename = true →
  sanitizeFilename filename =
  take 255 (trim (replace_dotdot (replace_hostile filename))).
Proof. intros Ht. unfold sanitizeFilename. by rewrite Ht. Qed.

Lemma sanitizeFilename_infix (filename : str) :
  truthy filename = true →
  infix_of (sanitizeFilename filename)
           (replace_dotdot (replace_hostile filename)).
Proof.
  intros Ht. rewrite (sanitizeFilename_truthy _ Ht).
  eapply infix_of_trans; [apply infix_of_take | apply infix_of_trim].
Qed.

(** Every character of a sanitized name of a non-empty input is outside the
    class of the first replacement. *)
Lemma sanitized_chars (filename : str) (c : N) :
  truthy filename = true →
  c ∈ sanitizeFilename filename → hostile c = false.
Proof.
  intros Ht Hc.
  eapply infix_of_elem in Hc; [| by apply sanitizeFilename_infix].
  apply (replace_dotdot_elem_le _ _ _ (le_n _)) in Hc as [->|Hc]; [done|].
  by apply replace_hostile_elem in Hc.
Qed.

Lemma not_elem_of_unnamed_file (c : N) :
  hostile c = true → c ∉ unnamed_file.
Proof.
  intros Hc Hin.
  assert (Forall (fun x => hostile x = false) unnamed_file) as Hall
    by (repeat constructor).
  rewrite Forall_forall in Hall. apply Hall in Hin. congruence.
Qed.

(** No character of the class survives, whatever the input. *)
Lemma sanitizeFilename_no_hostile (filename : str) (c : N) :
  hostile c = true → c ∉ sanitizeFilename filename.
Proof.
  intros Hc H. destruct (truthy filename) eqn:Ht.
  - apply sanitized_chars in H; [congruence | done].
  - destruct filename; [|discriminate].
    by apply (not_elem_of_unnamed_file c Hc).
Qed.

Lemma sanitizeFilename_length (filename : str) :
  (length (sanitizeFilename filename) ≤ 255)%nat.
Proof.
  destruct (truthy filename) eqn:Ht.
  - rewrite (sanitizeFilename_truthy _ Ht), length_take. lia.
  - destruct filename; [|discriminate]. vm_compute. lia.
Qed.

Lemma sanitizeFilename_no_dotdot (filename : str) :
  ¬ includes (sanitizeFilename filename) (lit "..").
Proof.
  destruct (truthy filename) eqn:Ht.
  - intros H.
    eapply infix_of_includes in H; [| by apply sanitizeFilename_infix].
    revert H. apply dotdot_free_sound, replace_dotdot_free.
  - destruct filename; [|discriminate]. by apply dotdot_free_sound.
Qed.

(** C9. For every input string, [sanitizeFilename] returns a string of at
    most 255 code units that holds no slash, no backslash and no two dots
    in a row. *)
Theorem sanitizeFilename_safe (filename : str) :
  (length (sanitizeFilename filename) ≤ 255)%nat
  ∧ (SLASH ∉ sanitizeFilename filename)
  ∧ (BACKSLASH ∉ sanitizeFilename filename)
  ∧ ¬ includes (sanitizeFilename filename) (lit "..").
Proof.
  split; [apply sanitizeFilename_length|].
  split; [by apply sanitizeFilename_no_hostile|].
  split; [by apply sanitizeFilename_no_hostile|].
  apply sanitizeFilename_no_dotdot.
Qed.

Lemma trimStart_blank (s : str) :
  Forall (fun c => is_white_space c = true) s → trimStart s = [].
Proof. induction 1 as [|c s Hc _ IH]; [done|]. simpl. by rewrite Hc. Qed.

Lemma white_space_kept (c : N) :
  is_white_space c = true → hostile c = false ∧ c ≠ DOT.
Proof.
  intros Hc. split.
  - destruct (hostile c) eqn:E; [|done].
    unfold hostile in E. apply bool_decide_eq_true in E.
    repeat (apply elem_of_cons in E as [->|E]; [done|]).
    by apply elem_of_nil in E.
  - by intros ->.
Qed.

Lemma replace_hostile_id (s : str) :
  Forall (fun c => hostile c = false) s → replace_hostile s = s.
Proof.
  induction 1 as [|c s Hc _ IH]; [done|].
  unfold replace_hostile in *. simpl. by rewrite Hc, IH.
Qed.

Lemma replace_dotdot_id (s : str) :
  Forall (fun c => c ≠ DOT) s → replace_dotdot s = s.
Proof.
  induction 1 as [|c s Hc _ IH]; [done|].
  destruct s as [|d r]; [done|].
  rewrite replace_dotdot_cons2, IH.
  apply N.eqb_neq in Hc. by rewrite Hc.
Qed.

(** A non-empty name made of white space only is sanitized to the empty
    string. *)
Lemma sanitizeFilename_white_space (filename : str) :
  truthy filename = true →
  Forall (fun c => is_white_space c = true) filename →
  sanitizeFilename filename = [].
Proof.
  intros Ht Hws. rewrite (sanitizeFilename_truthy _ Ht).
  rewrite replace_hostile_id, replace_dotdot_id.
  - unfold trim. by rewrite (trimStart_blank _ Hws).
  - eapply Forall_impl; [exact Hws|]. intros c Hc. by apply white_space_kept.
  - eapply Forall_impl; [exact Hws|]. intros c Hc. by apply white_space_kept.
Qed.

(** C4. The placeholder is returned for the empty input only: a name made
    of blanks is sanitized to the empty string, which is what
    [sanitizeFilename] then returns. *)
Theorem sanitizeFilename_blank_is_empty :
  sanitizeFilename (lit "   ") = []
  ∧ sanitizeFilename (lit "   ") ≠ unnamed_file
  ∧ sanitizeFilename [] = unnamed_file
  ∧ newFileName (Sample.upload_named (lit "   ")) = lit "--abc".
Proof. by vm_compute. Qed.

(** ** Extension and base name of a name without separator *)

Lemma charCodeAt_not_slash (p : str) (i : nat) :
  SLASH ∉ p →
  (i < length p)%nat → (charCodeAt p i =? SLASH)%N = false.
Proof.
  intros Hp Hi. apply N.eqb_neq. intros E. apply Hp. rewrite <- E.
  apply list_elem_of_In, nth_In, Hi.
Qed.

(** The loop of [extname] on such a name: the end of the extension is the
    end of the name, and the state before the dot is only set once a dot
    has been seen further right. *)
Lemma extname_loop_inv (p : str) (m : nat) :
  SLASH ∉ p →
  ∀ st : path.ExtState,
    (m ≤ length p)%nat →
    path.startPart st = 0 →
    (path.startDot st = -1 ∧ path.preDotState st = 0
     ∨ Z.of_nat m ≤ path.startDot st < Z.of_nat (length p)
       ∧ (path.preDotState st ≠ 0 → Z.of_nat m < path.startDot st)) →
    (m = length p ∧ path.ext_end st = -1
     ∨ (m < length p)%nat ∧ path.ext_end st = Z.of_nat (length p)) →
    let st' := path.extname_loop p m st in
    path.startPart st' = 0
    ∧ (path.startDot st' = -1 ∧ path.preDotState st' = 0
       ∨ 0 ≤ path.startDot st' < Z.of_nat (length p)
         ∧ (path.preDotState st' ≠ 0 → 0 < path.startDot st'))
    ∧ (length p = 0%nat ∨ path.ext_end st' = Z.of_nat (length p)).
Proof.
  intros Hp.
  induction m as [|i IH]; intros [sd sp en ms pd] Hm Hsp Hsd Hen; cbv zeta.
  - cbn in *. split; [done|]. split; [|lia].
    destruct Hsd as [[-> ->]|Hsd]; [by left|]. right. lia.
  - cbn [path.extname_loop]. rewrite (charCodeAt_not_slash p i Hp) by lia.
    cbn [path.startDot path.startPart path.ext_end path.ext_matchedSlash
         path.preDotState] in *.
    assert (∀ st1 : path.ExtState,
      path.startPart st1 = 0 →
      (path.startDot st1 = -1 ∧ path.preDotState st1 = 0
       ∨ Z.of_nat (S i) ≤ path.startDot st1 < Z.of_nat (length p)
         ∧ (path.preDotState st1 ≠ 0 → Z.of_nat (S i) < path.startDot st1)) →
      path.ext_end st1 = Z.of_nat (length p) →
      let st' :=
        path.extname_loop p i
          (if (charCodeAt p i =? DOT)%N then
             if path.startDot st1 =? -1
             then path.mkExt (Z.of_nat i) (path.startPart st1)
                    (path.ext_end st1) (path.ext_matchedSlash st1)
                    (path.preDotState st1)
             else if negb (path.preDotState st1 =? 1)
             then path.mkExt (path.startDot st1) (path.startPart st1)
                    (path.ext_end st1) (path.ext_matchedSlash st1) 1
             else st1
           else if negb (path.startDot st1 =? -1)
           then path.mkExt (path.startDot st1) (path.startPart st1)
                  (path.ext_end st1) (path.ext_matchedSlash st1) (-1)
           else st1) in
      path.startPart st' = 0
      ∧ (path.startDot st' = -1 ∧ path.preDotState st' = 0
         ∨ 0 ≤ path.startDot st' < Z.of_nat (length p)
           ∧ (path.preDotState st' ≠ 0 → 0 < path.startDot st'))
      ∧ (length p = 0%nat ∨ path.ext_end st' = Z.of_nat (length p)))
      as Hstep.
    { intros [sd1 sp1 en1 ms1 pd1] Hsp1 Hsd1 Hen1. cbn in Hsp1, Hsd1, Hen1.
      cbn [path.startDot path.startPart path.ext_end path.ext_matchedSlash
           path.preDotState].
      destruct (charCodeAt p i =? DOT)%N.
      - destruct (sd1 =? -1) eqn:E1.
        + apply IH; cbn; [lia | done | right; lia | right; lia].
        + destruct (negb (pd1 =? 1));
            apply IH; cbn; [lia | done | right; lia | right; lia
                           |lia | done | right; lia | right; lia].
      - destruct (negb (sd1 =? -1)) eqn:E1.
        + apply IH; cbn; [lia | done | right; lia | right; lia].
        + apply IH; cbn; [lia | done | left; lia | right; lia]. }
    destruct (en =? -1) eqn:Een.
    + apply Hstep; cbn; [done | | lia].
      destruct Hsd as [?|?]; [by left | by right].
    + apply Hstep; cbn; [done | | lia].
      destruct Hsd as [?|?]; [by left | by right].
Qed.

Lemma slice_drop (p : str) (k : nat) :
  (k ≤ length p)%nat →
  slice p (Z.of_nat k) (Z.of_nat (length p)) = drop k p.
Proof.
  intros Hk. unfold slice.
  assert ((Z.of_nat k <? 0) = false) as -> by lia.
  assert ((Z.of_nat (length p) <? 0) = false) as -> by lia.
  rewrite !Z.min_l by lia. rewrite Nat2Z.id.
  apply take_ge. rewrite length_drop. lia.
Qed.

Lemma slice_take (p : str) (k : nat) :
  (k ≤ length p)%nat → slice p 0 (Z.of_nat k) = take k p.
Proof.
  intros Hk. unfold slice.
  assert ((Z.of_nat k <? 0) = false) as -> by lia.
  change (0 <? 0) with false. cbv iota.
  rewrite !Z.min_l by lia. rewrite Z.sub_0_r, Nat2Z.id. reflexivity.
Qed.

(** The extension of such a name is empty, or what starts at one of its
    dots other than the first character. *)
Lemma extname_drop (p : str) :
  SLASH ∉ p →
  path.extname p = []
  ∨ ∃ k, (0 < k < length p)%nat ∧ path.extname p = drop k p.
Proof.
  intros Hp. unfold path.extname.
  destruct (extname_loop_inv p (length p) Hp (path.mkExt (-1) 0 (-1) true 0))
    as (Hsp & Hsd & Hen); cbn; [lia | done | by left | by left |].
  set (st := path.extname_loop p (length p) (path.mkExt (-1) 0 (-1) true 0))
    in *.
  destruct ((path.startDot st =? -1) || (path.ext_end st =? -1)
            || (path.preDotState st =? 0)
            || ((path.preDotState st =? 1)
                && (path.startDot st =? path.ext_end st - 1)
                && (path.startDot st =? path.startPart st + 1))) eqn:E;
    [by left|].
  right. apply orb_false_iff in E as [E _].
  apply orb_false_iff in E as [E E3]. apply orb_false_iff in E as [E1 E2].
  destruct Hsd as [[? ?]|[Hr Hpos]]; [lia|].
  destruct Hen as [Hz|Hen]; [lia|].
  exists (Z.to_nat (path.startDot st)). split; [lia|].
  rewrite Hen. rewrite <- (Z2Nat.id (path.startDot st)) at 1 by lia.
  apply slice_drop. lia.
Qed.

(** The loop of [basename] that strips a suffix, when the suffix is the
    end of the name from position [k] on. *)
Lemma basename_suffix_loop_inv (p : str) (k : nat) (m : nat) :
  SLASH ∉ p →
  (0 < k < length p)%nat →
  ∀ st : path.BaseState,
    (m ≤ length p)%nat →
    path.start st = 0 →
    ((k < m)%nat ∧ path.extIdx st = Z.of_nat m - 1 - Z.of_nat k
       ∧ path.base_end st = -1
       ∧ (m = length p ∧ path.firstNonSlashEnd st = -1
          ∨ (m < length p)%nat
            ∧ path.firstNonSlashEnd st = Z.of_nat (length p))
     ∨ (m ≤ k)%nat ∧ path.extIdx st = -1
       ∧ path.base_end st = Z.of_nat k
       ∧ path.firstNonSlashEnd st = Z.of_nat (length p)) →
    let st' := path.basename_suffix_loop p (drop k p) m st in
    path.start st' = 0 ∧ path.base_end st' = Z.of_nat k.
Proof.
  intros Hp Hk.
  induction m as [|i IH]; intros [s en ms ei fe] Hm Hs Hinv.
  - cbn in *. destruct Hinv as [?|?]; lia.
  - cbv zeta. cbn [path.basename_suffix_loop].
    rewrite (charCodeAt_not_slash p i Hp) by lia.
    cbn [path.start path.base_end path.base_matchedSlash path.extIdx
         path.firstNonSlashEnd] in *.
    destruct Hinv as [(Hkm & Hei & Hen & Hfe)|(Hmk & Hei & Hen & Hfe)].
    + assert ((charCodeAt p i
               =? charCodeAt (drop k p) (Z.to_nat ei))%N = true) as Hc.
      { apply N.eqb_eq. unfold charCodeAt.
        rewrite <- (take_drop k p) at 1.
        rewrite app_nth2 by (rewrite length_take; lia).
        f_equal. rewrite length_take. lia. }
      assert ((0 <=? ei) = true) as Hge by lia.
      destruct (fe =? -1) eqn:Efe;
        cbn [path.start path.base_end path.base_matchedSlash path.extIdx
             path.firstNonSlashEnd];
        rewrite Hge, Hc;
        (destruct (ei - 1 =? -1) eqn:Ee;
         apply IH; cbn; [lia | done | right; lia | lia | done | left; lia]).
    + assert ((fe =? -1) = false) as -> by lia.
      cbn [path.start path.base_end path.base_matchedSlash path.extIdx
           path.firstNonSlashEnd].
      assert ((0 <=? ei) = false) as -> by lia.
      apply IH; cbn; [lia | done | right; lia].
Qed.

Lemma basename_plain_loop_inv (p : str) (m : nat) :
  SLASH ∉ p →
  ∀ st : path.BaseState,
    (m ≤ length p)%nat →
    path.start st = 0 →
    (m = length p ∧ path.base_end st = -1
     ∨ (m < length p)%nat ∧ path.base_end st = Z.of_nat (length p)) →
    let st' := path.basename_plain_loop p m st in
    path.start st' = 0
    ∧ (length p = 0%nat ∧ path.base_end st' = -1
       ∨ path.base_end st' = Z.of_nat (length p)).
Proof.
  intros Hp.
  induction m as [|i IH]; intros [s en ms ei fe] Hm Hs Hinv.
  - cbn in *. split; [done|]. destruct Hinv as [[? ?]|[? ?]]; [left|right]; lia.
  - cbv zeta. cbn [path.basename_plain_loop].
    rewrite (charCodeAt_not_slash p i Hp) by lia.
    cbn [path.start path.base_end path.base_matchedSlash path.extIdx
         path.firstNonSlashEnd] in *.
    destruct (en =? -1) eqn:Een; apply IH; cbn; [lia | done | right; lia
                                                 |lia | done | right; lia].
Qed.

(** A name without separator is its base name followed by its
    extension. *)
Lemma basename_extname_split (p : str) :
  SLASH ∉ p →
  path.basename p (path.extname p) ++ path.extname p = p.
Proof.
  intros Hp. destruct (extname_drop p Hp) as [->|(k & Hk & ->)].
  - rewrite app_nil_r. unfold path.basename. change (0 <? Z.of_nat 0) with false.
    cbv iota. cbn [andb].
    destruct (basename_plain_loop_inv p (length p) Hp
                (path.mkBase 0 (-1) true 0 (-1)))
      as (Hs & He); cbn; [lia | done | by left |].
    destruct He as [[Hz He]|He].
    + rewrite He. cbn. by destruct p.
    + rewrite Hs, He.
      assert ((Z.of_nat (length p) =? -1) = false) as -> by lia.
      rewrite (slice_take p (length p)) by lia. apply firstn_all.
  - unfold path.basename. rewrite length_drop.
    assert ((0 <? Z.of_nat (length p - k))
            && (Z.of_nat (length p - k) <=? Z.of_nat (length p)) = true)
      as ->
      by (apply andb_true_intro; split;
          [apply Z.ltb_lt | apply Z.leb_le]; lia).
    rewrite bool_decide_eq_false_2.
    2:{ intros E. apply (f_equal length) in E. rewrite length_drop in E. lia. }
    destruct (basename_suffix_loop_inv p k (length p) Hp Hk
                (path.mkBase 0 (-1) true (Z.of_nat (length p - k) - 1) (-1)))
      as (Hs & He); cbn; [lia | done | left; lia |].
    rewrite Hs, He.
    assert ((0 =? Z.of_nat k) = false) as -> by lia.
    assert ((Z.of_nat k =? -1) = false) as -> by lia.
    rewrite slice_take by lia. apply take_drop.
Qed.

Lemma extname_infix (p : str) : infix_of (path.extname p) p.
Proof.
  unfold path.extname.
  destruct (_ || _); [apply infix_of_nil | apply infix_of_slice].
Qed.

Lemma basename_infix (p suffix : str) : infix_of (path.basename p suffix) p.
Proof.
  unfold path.basename. destruct (_ && _).
  - case_bool_decide; [apply infix_of_nil | apply infix_of_slice].
  - destruct (_ =? _); [apply infix_of_nil | apply infix_of_slice].
Qed.

(** ** The monad: how each operation runs *)

Section Runs.

Context (w : World).

Lemma run_bind {A B} (m : M A) (k : A → M B) :
  (m ≫= k) w = match m w with
               | (Ok a, w') => k a w'
               | (Throw e, w') => (Throw e, w')
               end.
Proof. reflexivity. Qed.

Lemma run_stat (fault : bool) (name : str) :
  stat fault name w =
  match dir w !! name with
  | None => (Throw ENOENT, w)
  | Some st => if fault then (Throw EIO, w) else (Ok st, w)
  end.
Proof.
  unfold stat. rewrite run_bind. simpl.
  destruct (dir w !! name); [by destruct fault | done].
Qed.

Lemma run_rename (fault : bool) (old new : str) :
  rename fault old new w =
  match dir w !! old with
  | None => (Throw ENOENT, w)
  | Some st =>
      if fault then (Throw EIO, w)
      else (Ok tt, mkWorld (<[new := st]> (delete old (dir w)))
                           (log w) (hits w))
  end.
Proof.
  unfold rename. rewrite run_bind. simpl.
  destruct (dir w !! old); [by destruct fault | done].
Qed.

Lemma run_unlink (fault : bool) (name : str) :
  unlink fault name w =
  match dir w !! name with
  | None => (Throw ENOENT, w)
  | Some st =>
      if fault then (Throw EIO, w)
      else if isFile st
      then (Ok tt, mkWorld (delete name (dir w)) (log w) (hits w))
      else (Throw EISDIR, w)
  end.
Proof.
  unfold unlink. rewrite run_bind. simpl.
  destruct (dir w !! name) as [st|]; [|done].
  destruct fault; [done|]. by destruct (isFile st).
Qed.

(** An unlink whose rejection is swallowed always returns normally; the
    file is gone unless the system refused. *)
Lemma run_swallow_unlink (fault : bool) (name : str) :
  swallow (unlink fault name) w =
  (Ok tt, mkWorld (unlinked fault name (dir w)) (log w) (hits w)).
Proof.
  unfold swallow, try_catch, unlinked, without_file. rewrite run_unlink.
  destruct w as [d l h]; simpl.
  destruct (d !! name) as [st|]; [|by destruct fault].
  destruct fault; [done|]. by destruct (isFile st).
Qed.

End Runs.

(** Runs the next binds and the logging calls they meet. *)
Ltac run_step :=
  repeat first [rewrite run_bind | progress cbn [logger log dir hits]].

(** ** The directory without a file *)

Lemma without_file_lookup_ne (name other : str) (d : Dir) :
  other ≠ name → without_file name d !! other = d !! other.
Proof.
  intros Hne. unfold without_file.
  destruct (d !! name) as [st|]; [|done].
  destruct (isFile st); [by rewrite lookup_delete_ne | done].
Qed.

Lemma without_file_lookup (name : str) (d : Dir) :
  without_file name d !! name =
  match d !! name with
  | Some st => if isFile st then None else Some st
  | None => None
  end.
Proof.
  unfold without_file. destruct (d !! name) as [st|] eqn:E; [|done].
  destruct (isFile st); [by rewrite lookup_delete_eq | done].
Qed.

Lemma without_file_gone (name : str) (d : Dir) :
  ¬ file_at (without_file name d) name.
Proof.
  intros (st & Hst & Hf). rewrite without_file_lookup in Hst.
  destruct (d !! name) as [st'|]; [|done].
  destruct (isFile st') eqn:E; [done|]. congruence.
Qed.

Lemma without_file_subset (name other : str) (d : Dir) :
  file_at (without_file name d) other → file_at d other.
Proof.
  intros (st & Hst & Hf). exists st. split; [|done].
  destruct (decide (other = name)) as [->|Hne].
  - rewrite without_file_lookup in Hst.
    destruct (d !! name) as [st'|]; [|done].
    by destruct (isFile st').
  - by rewrite without_file_lookup_ne in Hst.
Qed.

Lemma unlinked_lookup_ne (fault : bool) (name other : str) (d : Dir) :
  other ≠ name → unlinked fault name d !! other = d !! other.
Proof.
  intros Hne. unfold unlinked. destruct fault; [done|].
  by apply without_file_lookup_ne.
Qed.

(** A swallowed unlink only ever removes. *)
Lemma unlinked_lookup_Some (fault : bool) (name other : str) (d : Dir)
    (st : Stats) :
  unlinked fault name d !! other = Some st → d !! other = Some st.
Proof.
  unfold unlinked. destruct fault; [done|]. intros H.
  destruct (decide (other = name)) as [->|Hne].
  - rewrite without_file_lookup in H.
    destruct (d !! name) as [st'|]; [|done]. by destruct (isFile st').
  - by rewrite without_file_lookup_ne in H.
Qed.

Lemma unlinked_subset (fault : bool) (name other : str) (d : Dir) :
  file_at (unlinked fault name d) other → file_at d other.
Proof.
  intros (st & Hst & Hf). exists st. split; [|done].
  by apply unlinked_lookup_Some in Hst.
Qed.

Lemma unlinked_gone (name : str) (d : Dir) :
  ¬ file_at (unlinked false name d) name.
Proof. apply without_file_gone. Qed.

(** The name of the metadata record is not the name of the partial file. *)
Lemma metadata_name_ne (uploadId : str) : uploadId ≠ uploadId ++ lit ".json".
Proof.
  intros E. apply (f_equal length) in E.
  rewrite length_app in E. simpl in E. lia.
Qed.

(** ** cleanupUpload *)

Lemma run_cleanupUpload (env : Env) (uploadId : str) (w : World) :
  cleanupUpload env uploadId w =
  (Ok tt,
   mkWorld (unlinked (unlink_fault env (uploadId ++ lit ".json"))
                     (uploadId ++ lit ".json")
              (unlinked (unlink_fault env uploadId) uploadId (dir w)))
           (log w ++ [LogCleanedUp uploadId]) (hits w)).
Proof.
  unfold cleanupUpload, try_catch, metadata_name. rewrite run_bind.
  cbn [allSettled]. rewrite run_swallow_unlink.
  rewrite run_bind, run_swallow_unlink. reflexivity.
Qed.

(** What [cleanupUpload] leaves of the two files and of the rest. *)
Lemma cleanupUpload_dir (env : Env) (uploadId : str) (w : World) :
  let d' := dir (cleanupUpload env uploadId w).2 in
  (unlink_fault env uploadId = false → ¬ file_at d' uploadId)
  ∧ (unlink_fault env (uploadId ++ lit ".json") = false →
     ¬ file_at d' (uploadId ++ lit ".json"))
  ∧ (unlink_fault env uploadId = true → d' !! uploadId = dir w !! uploadId)
  ∧ (unlink_fault env (uploadId ++ lit ".json") = true →
     d' !! (uploadId ++ lit ".json") = dir w !! (uploadId ++ lit ".json"))
  ∧ (∀ name, name ≠ uploadId → name ≠ uploadId ++ lit ".json" →
             d' !! name = dir w !! name)
  ∧ (∀ name st, d' !! name = Some st → dir w !! name = Some st).
Proof.
  rewrite run_cleanupUpload. cbn [snd dir]. cbv zeta.
  pose proof (metadata_name_ne uploadId) as Hne.
  split; [|split; [|split; [|split; [|split]]]].
  - intros -> H. apply unlinked_subset in H. by apply unlinked_gone in H.
  - intros ->. apply unlinked_gone.
  - intros ->. by rewrite unlinked_lookup_ne.
  - intros ->. cbn [unlinked]. by rewrite unlinked_lookup_ne.
  - intros name H1 H2. by rewrite !unlinked_lookup_ne.
  - intros name st H. by do 2 apply unlinked_lookup_Some in H.
Qed.

(** C7, as the code has it.  For every upload identifier that names an
    entry of the upload directory, in every state of the directory and
    whatever the system refuses, [cleanupUpload] returns normally and says
    so in the log; the partial file [<id>] is gone afterwards unless its
    unlink was refused, and so is the metadata record [<id>.json]; an entry
    whose unlink was refused is as it was; no other entry is touched and
    none appears. *)
Theorem cleanupUpload_removes_unless_refused (env : Env) (uploadId : str)
    (w : World) :
  entry_name uploadId →
  ∃ w', cleanupUpload env uploadId w = (Ok tt, w')
    ∧ (unlink_fault env uploadId = false → ¬ file_at (dir w') uploadId)
    ∧ (unlink_fault env (uploadId ++ lit ".json") = false →
       ¬ file_at (dir w') (uploadId ++ lit ".json"))
    ∧ (unlink_fault env uploadId = true →
       dir w' !! uploadId = dir w !! uploadId)
    ∧ (unlink_fault env (uploadId ++ lit ".json") = true →
       dir w' !! (uploadId ++ lit ".json")
       = dir w !! (uploadId ++ lit ".json"))
    ∧ (∀ name, name ≠ uploadId → name ≠ uploadId ++ lit ".json" →
               dir w' !! name = dir w !! name)
    ∧ (∀ name st, dir w' !! name = Some st → dir w !! name = Some st)
    ∧ log w' = log w ++ [LogCleanedUp uploadId].
Proof.
  intros _. pose proof (cleanupUpload_dir env uploadId w) as H.
  cbv zeta in H. destruct H as (H1 & H2 & H3 & H4 & H5 & H6).
  exists (cleanupUpload env uploadId w).2.
  split; [by rewrite run_cleanupUpload|].
  do 6 (split; [done|]). by rewrite run_cleanupUpload.
Qed.

Lemma cleanupUpload_removes_unless_refused_witness :
  ∃ w', cleanupUpload Sample.env_full_disk (lit "abc") Sample.world
        = (Ok tt, w')
    ∧ ¬ file_at (dir w') (lit "abc")
    ∧ ¬ file_at (dir w') (lit "abc.json")
    ∧ dir w' = ∅
    ∧ log w' = [LogCleanedUp (lit "abc")].
Proof.
  assert (entry_name (lit "abc")) as Hid.
  { repeat split; try discriminate.
    apply (bool_decide_unpack _). by vm_compute. }
  destruct (cleanupUpload_removes_unless_refused Sample.env_full_disk
              (lit "abc") Sample.world Hid)
    as (w' & Hrun & Hfile & Hmeta & _ & _ & _ & _ & Hlog).
  exists w'. split; [exact Hrun|].
  split; [exact (Hfile eq_refl)|]. split; [exact (Hmeta eq_refl)|].
  split; [|exact Hlog].
  assert (cleanupUpload Sample.env_full_disk (lit "abc") Sample.world
          = (Ok tt, mkWorld ∅ [LogCleanedUp (lit "abc")] ∅)) as E
    by (by vm_compute).
  rewrite E in Hrun. by injection Hrun as <-.
Defined.

(** C7 as the specification has it fails where the system refuses an
    unlink: the partial file of the sample upload cannot be unlinked;
    [cleanupUpload] returns normally and logs that it cleaned up, and the
    partial file is still there. *)
Lemma cleanupUpload_leaves_refused_file :
  file_at (dir Sample.world) (lit "abc")
  ∧ ∃ w', cleanupUpload Sample.env_unlink_refused (lit "abc") Sample.world
          = (Ok tt, w')
      ∧ file_at (dir w') (lit "abc")
      ∧ dir w' !! lit "abc.json" = None
      ∧ log w' = [LogCleanedUp (lit "abc")].
Proof.
  split; [exists (mkStats true 0 1024); by vm_compute|].
  exists (cleanupUpload Sample.env_unlink_refused (lit "abc") Sample.world).2.
  split; [by vm_compute|].
  split; [exists (mkStats true 0 1024); by vm_compute|].
  split; by vm_compute.
Qed.

(** ** Finalization *)

(** What the timer callback does, case by case. *)
Lemma run_finalize (config : Config) (env : Env) (upload : Upload) (w : World) :
  finalize config env upload w =
  let fallback (events : list LogEvent) :=
    (Ok tt,
     mkWorld (dir (cleanupUpload env (id upload) w).2)
             (log w ++ events ++ [LogCleanedUp (id upload)]) (hits w)) in
  match dir w !! id upload with
  | None => fallback [LogRenameError (id upload) ENOENT]
  | Some st =>
      if stat_fault env then fallback [LogRenameError (id upload) EIO]
      else if rename_fault env
      then fallback [LogUploadSize (size st); LogRenameError (id upload) EIO]
      else
        (Ok tt,
         mkWorld (unlinked (unlink_fault env (id upload ++ lit ".json"))
                           (id upload ++ lit ".json")
                    (<[newFileName upload := st]>
                       (delete (id upload) (dir w))))
                 (log w ++ [LogUploadSize (size st);
                            LogRenamed (newFileName upload)])
                 (hits w))
  end.
Proof.
  unfold finalize, try_catch, metadata_name.
  rewrite run_bind, run_stat, run_cleanupUpload.
  destruct w as [d l h]. cbn [dir log hits snd].
  destruct (d !! id upload) as [st|] eqn:Hst.
  - destruct (stat_fault env).
    + run_step. rewrite run_cleanupUpload. run_step.
      by rewrite <- ?app_assoc.
    + run_step. rewrite run_rename. run_step. rewrite Hst.
      destruct (rename_fault env).
      * run_step. rewrite run_cleanupUpload. run_step.
        by rewrite <- ?app_assoc.
      * run_step. rewrite run_swallow_unlink. run_step.
        by rewrite <- ?app_assoc.
  - run_step. rewrite run_cleanupUpload. run_step.
    by rewrite <- ?app_assoc.
Qed.

(** The callback never rejects: whatever fails inside is caught. *)
Lemma finalize_contained (config : Config) (env : Env) (upload : Upload)
    (w : World) :
  ∃ w', finalize config env upload w = (Ok tt, w').
Proof.
  rewrite run_finalize. cbv zeta.
  destruct (dir w !! id upload); [|by eexists].
  destruct (stat_fault env); [by eexists|].
  destruct (rename_fault env); by eexists.
Qed.

(** The configuration plays no part in finalization. *)
Lemma finalize_ignores_config (c1 c2 : Config) (env : Env) (upload : Upload) :
  finalize c1 env upload = finalize c2 env upload.
Proof. reflexivity. Qed.

(** When the two steps fail, and with what. *)
Lemma run_stat_then_rename (env : Env) (upload : Upload) (w : World) :
  stat_then_rename env upload w =
  match dir w !! id upload with
  | None => (Throw ENOENT, w)
  | Some st =>
      if stat_fault env then (Throw EIO, w)
      else if rename_fault env then (Throw EIO, w)
      else (Ok tt, mkWorld (<[newFileName upload := st]>
                              (delete (id upload) (dir w)))
                           (log w) (hits w))
  end.
Proof.
  unfold stat_then_rename. rewrite run_bind, run_stat.
  destruct (dir w !! id upload) as [st|] eqn:Hst; [|done].
  destruct (stat_fault env); [done|].
  rewrite run_rename, Hst. by destruct (rename_fault env).
Qed.

(** The public name, written as the specification does. *)
Lemma newFileName_format (upload : Upload) :
  newFileName upload =
  path.basename (finalFileName upload) (path.extname (finalFileName upload))
  ++ lit "--" ++ id upload ++ path.extname (finalFileName upload).
Proof.
  unfold newFileName.
  destruct (path.extname (finalFileName upload)); [|done].
  simpl truthy. cbv iota. by rewrite app_nil_r.
Qed.

Lemma finalFileName_named (upload : Upload) (filename : str) :
  default ∅ (metadata upload) !! lit "filename" = Some (Some filename) →
  finalFileName upload = sanitizeFilename filename.
Proof.
  intros H. unfold finalFileName. rewrite H.
  by destruct filename.
Qed.

Lemma finalFileName_unnamed (upload : Upload) :
  default ∅ (metadata upload) !! lit "filename" = None →
  finalFileName upload = unnamed_file.
Proof. intros H. unfold finalFileName. by rewrite H. Qed.

Lemma dashes_app (s t : str) : dashes (s ++ t) = (dashes s + dashes t)%nat.
Proof. unfold dashes. by rewrite filter_app, length_app. Qed.

Lemma dashes_newFileName (upload : Upload) :
  (2 + dashes (id upload) ≤ dashes (newFileName upload))%nat.
Proof.
  rewrite newFileName_format, !dashes_app.
  change (dashes (lit "--")) with 2%nat. lia.
Qed.

(** The public name is neither the internal name nor the name of the
    metadata record. *)
Lemma newFileName_fresh (upload : Upload) :
  newFileName upload ≠ id upload
  ∧ newFileName upload ≠ metadata_name (id upload).
Proof.
  pose proof (dashes_newFileName upload) as H.
  split; intros E; rewrite E in H.
  - lia.
  - unfold metadata_name in H. rewrite dashes_app in H.
    change (dashes (lit ".json")) with 0%nat in H. lia.
Qed.

Lemma finalFileName_sanitized (upload : Upload) :
  ∃ filename, finalFileName upload = sanitizeFilename filename.
Proof.
  unfold finalFileName.
  destruct (default ∅ (metadata upload) !! lit "filename") as [[f|]|];
    [| by exists [] | by exists []].
  destruct f; [by exists [] | by eexists].
Qed.

(** The rename target stays in the upload directory: when the identifier
    holds no separator, neither does the public name, whatever the client
    sent as filename. *)
Lemma newFileName_no_separator (upload : Upload) :
  SLASH ∉ id upload → SLASH ∉ newFileName upload.
Proof.
  intros Hid. destruct (finalFileName_sanitized upload) as [f Hf].
  assert (SLASH ∉ finalFileName upload) as Hslash
    by (rewrite Hf; by apply sanitizeFilename_no_hostile).
  rewrite newFileName_format, !elem_of_app.
  intros [H|[H|[H|H]]].
  - by apply (infix_of_elem _ _ _ (basename_infix _ _)) in H.
  - vm_compute in H. repeat (apply elem_of_cons in H as [H|H]; [done|]).
    by apply elem_of_nil in H.
  - done.
  - by apply (infix_of_elem _ _ _ (extname_infix _)) in H.
Qed.

(** The public name is the file name the client sent, sanitized, with two
    dashes and the identifier put in: it is as much longer. *)
Lemma newFileName_length (upload : Upload) :
  length (newFileName upload)
  = (length (finalFileName upload) + 2 + length (id upload))%nat.
Proof.
  destruct (finalFileName_sanitized upload) as [f Hf].
  assert (SLASH ∉ finalFileName upload) as Hslash
    by (rewrite Hf; by apply sanitizeFilename_no_hostile).
  pose proof (basename_extname_split _ Hslash) as E.
  apply (f_equal length) in E. rewrite length_app in E.
  rewrite newFileName_format, !length_app.
  change (length (lit "--")) with 2%nat. lia.
Qed.

(** The state finalization leaves when both steps succeed. *)
Lemma finalize_success (config : Config) (env : Env) (upload : Upload)
    (w : World) (st : Stats) :
  dir w !! id upload = Some st →
  stat_fault env = false → rename_fault env = false →
  ∃ w', finalize config env upload w = (Ok tt, w')
    ∧ dir w' !! newFileName upload = Some st
    ∧ dir w' !! id upload = None
    ∧ (unlink_fault env (id upload ++ lit ".json") = false →
       ¬ file_at (dir w') (id upload ++ lit ".json"))
    ∧ log w' = log w ++ [LogUploadSize (size st);
                         LogRenamed (newFileName upload)].
Proof.
  intros Hst Hs Hr. rewrite run_finalize. cbv zeta. rewrite Hst, Hs, Hr.
  destruct (newFileName_fresh upload) as [Hid Hmeta].
  unfold metadata_name in Hmeta.
  eexists. split; [reflexivity|]. cbn [dir log].
  split; [|split; [|split]].
  - rewrite unlinked_lookup_ne by done. apply lookup_insert_eq.
  - rewrite unlinked_lookup_ne by apply metadata_name_ne.
    rewrite lookup_insert_ne by done. apply lookup_delete_eq.
  - intros ->. apply unlinked_gone.
  - reflexivity.
Qed.

(** When the two steps go through, the partial file moves from its
    internal name to [<base>--<id><ext>], where [base] and [ext] are the
    base name and the extension of the sanitized filename, which they make
    up when put side by side. *)
Lemma finalize_public_name (config : Config) (env : Env)
    (upload : Upload) (w : World) (filename : str) (st : Stats) :
  default ∅ (metadata upload) !! lit "filename" = Some (Some filename) →
  dir w !! id upload = Some st →
  stat_fault env = false → rename_fault env = false →
  let sanitized := sanitizeFilename filename in
  let ext := path.extname sanitized in
  let base := path.basename sanitized ext in
  base ++ ext = sanitized
  ∧ ∃ w', finalize config env upload w = (Ok tt, w')
      ∧ dir w' !! (base ++ lit "--" ++ id upload ++ ext) = Some st
      ∧ dir w' !! id upload = None.
Proof.
  intros Hname Hst Hs Hr. cbv zeta. split.
  { by apply basename_extname_split, sanitizeFilename_no_hostile. }
  destruct (finalize_success config env upload w st Hst Hs Hr)
    as (w' & Hrun & Hnew & Hold & _).
  exists w'. rewrite newFileName_format in Hnew.
  rewrite (finalFileName_named _ _ Hname) in Hnew. done.
Qed.

(** C5 fails on the code for a long file name.  The sanitizer cuts the
    name at 255 code units, the longest name a directory entry can have,
    and the two dashes and the identifier are put in after the cut.  A
    client names its upload with 250 letters and [.pdf]: the sanitizer
    keeps the 254 units, the public name has 288, the file system refuses
    the rename, and the callback falls back to [cleanupUpload]: the
    completed upload is deleted, and the directory is left empty. *)
Theorem finalize_long_name_loses_upload :
  length Sample.long_filename = 254%nat
  ∧ sanitizeFilename Sample.long_filename = Sample.long_filename
  ∧ newFileName Sample.upload_long
    = replicate 250 97%N ++ lit "--" ++ Sample.hex_id ++ lit ".pdf"
  ∧ length (newFileName Sample.upload_long) = 288%nat
  ∧ rename_fault (Sample.env_name_limit Sample.upload_long) = true
  ∧ file_at (dir Sample.world_long) Sample.hex_id
  ∧ ∃ w', finalize default_config (Sample.env_name_limit Sample.upload_long)
            Sample.upload_long Sample.world_long = (Ok tt, w')
      ∧ dir w' = ∅
      ∧ log w' = [LogUploadSize 1024;
                  LogRenameError Sample.hex_id EIO;
                  LogCleanedUp Sample.hex_id].
Proof.
  split; [by vm_compute|]. split; [by vm_compute|].
  split; [by vm_compute|]. split; [by vm_compute|].
  split; [by vm_compute|].
  split; [exists (mkStats true 0 1024); by vm_compute|].
  exists (finalize default_config (Sample.env_name_limit Sample.upload_long)
            Sample.upload_long Sample.world_long).2.
  split; [by vm_compute|]. split; by vm_compute.
Qed.

Lemma newFileName_unnamed (upload : Upload) :
  default ∅ (metadata upload) !! lit "filename" = None →
  newFileName upload = lit "unnamed_file--" ++ id upload.
Proof.
  intros H. unfold newFileName. rewrite (finalFileName_unnamed _ H).
  change (path.extname unnamed_file) with (@nil N).
  change (path.basename unnamed_file []) with unnamed_file.
  reflexivity.
Qed.

(** C10. For every completed upload whose metadata holds no filename entry
    and whose partial file is in the directory, when the stat and rename
    steps go through, finalization moves the partial file to exactly
    [unnamed_file--<id>], with no extension after the identifier. *)
Theorem finalize_unnamed_upload (config : Config) (env : Env)
    (upload : Upload) (w : World) (st : Stats) :
  default ∅ (metadata upload) !! lit "filename" = None →
  dir w !! id upload = Some st →
  stat_fault env = false → rename_fault env = false →
  newFileName upload = lit "unnamed_file--" ++ id upload
  ∧ ∃ w', finalize config env upload w = (Ok tt, w')
      ∧ dir w' !! (lit "unnamed_file--" ++ id upload) = Some st
      ∧ dir w' !! id upload = None.
Proof.
  intros Hname Hst Hs Hr.
  split; [by apply newFileName_unnamed|].
  destruct (finalize_success config env upload w st Hst Hs Hr)
    as (w' & Hrun & Hnew & Hold & _).
  exists w'. by rewrite <- (newFileName_unnamed _ Hname).
Qed.

Lemma finalize_unnamed_upload_witness :
  newFileName Sample.upload_unnamed = lit "unnamed_file--abc"
  ∧ ∃ w', finalize default_config Sample.env_full_disk Sample.upload_unnamed
            Sample.world = (Ok tt, w')
      ∧ dir w' !! lit "unnamed_file--abc" = Some (mkStats true 0 1024)
      ∧ dir w' !! lit "abc" = None.
Proof.
  exact (finalize_unnamed_upload default_config Sample.env_full_disk
           Sample.upload_unnamed Sample.world (mkStats true 0 1024)
           eq_refl eq_refl eq_refl eq_refl).
Defined.

(** C6, as the code has it.  For every upload whose stat or rename step
    fails, whatever the cause, the timer callback still returns normally:
    it logs the failure at error level and runs [cleanupUpload], which
    leaves the directory as it leaves it on its own.  Afterwards the
    partial file is gone unless its unlink was refused, and so is the
    metadata record; an entry whose unlink was refused is as it was; no
    entry has appeared, the public name least of all. *)
Theorem finalize_failure_falls_back (config : Config) (env : Env)
    (upload : Upload) (w w1 : World) (e : Errno) :
  stat_then_rename env upload w = (Throw e, w1) →
  ∃ w', finalize config env upload w = (Ok tt, w')
    ∧ dir w' = dir (cleanupUpload env (id upload) w).2
    ∧ (unlink_fault env (id upload) = false → ¬ file_at (dir w') (id upload))
    ∧ (unlink_fault env (id upload ++ lit ".json") = false →
       ¬ file_at (dir w') (id upload ++ lit ".json"))
    ∧ (unlink_fault env (id upload) = true →
       dir w' !! id upload = dir w !! id upload)
    ∧ (unlink_fault env (id upload ++ lit ".json") = true →
       dir w' !! (id upload ++ lit ".json")
       = dir w !! (id upload ++ lit ".json"))
    ∧ (∀ name st, dir w' !! name = Some st → dir w !! name = Some st)
    ∧ LogRenameError (id upload) e ∈ log w'
    ∧ is_error_level (LogRenameError (id upload) e) = true
    ∧ LogCleanedUp (id upload) ∈ log w'.
Proof.
  intros Hfail. rewrite run_stat_then_rename in Hfail.
  rewrite run_finalize. cbv zeta.
  pose proof (cleanupUpload_dir env (id upload) w) as Hdir.
  cbv zeta in Hdir. destruct Hdir as (H1 & H2 & H3 & H4 & _ & H6).
  assert (∀ events,
    LogRenameError (id upload) e ∈ events →
    ∃ w',
      (Ok tt,
       mkWorld (dir (cleanupUpload env (id upload) w).2)
               (log w ++ events ++ [LogCleanedUp (id upload)]) (hits w))
      = (Ok tt, w')
      ∧ dir w' = dir (cleanupUpload env (id upload) w).2
      ∧ (unlink_fault env (id upload) = false →
         ¬ file_at (dir w') (id upload))
      ∧ (unlink_fault env (id upload ++ lit ".json") = false →
         ¬ file_at (dir w') (id upload ++ lit ".json"))
      ∧ (unlink_fault env (id upload) = true →
         dir w' !! id upload = dir w !! id upload)
      ∧ (unlink_fault env (id upload ++ lit ".json") = true →
         dir w' !! (id upload ++ lit ".json")
         = dir w !! (id upload ++ lit ".json"))
      ∧ (∀ name st, dir w' !! name = Some st → dir w !! name = Some st)
      ∧ LogRenameError (id upload) e ∈ log w'
      ∧ is_error_level (LogRenameError (id upload) e) = true
      ∧ LogCleanedUp (id upload) ∈ log w') as Hfallback.
  { intros events Hev. eexists. split; [reflexivity|]. cbn [dir log].
    do 6 (split; [done|]). split; [|split; [done|]].
    - rewrite !elem_of_app. right. by left.
    - rewrite !elem_of_app. right. right. apply elem_of_cons. by left. }
  destruct (dir w !! id upload) as [st|].
  - destruct (stat_fault env).
    + injection Hfail as <- _. apply Hfallback. apply elem_of_cons. by left.
    + destruct (rename_fault env); [|discriminate].
      injection Hfail as <- _. apply Hfallback.
      apply elem_of_cons. right. apply elem_of_cons. by left.
  - injection Hfail as <- _. apply Hfallback. apply elem_of_cons. by left.
Qed.

Lemma finalize_failure_falls_back_witness :
  ∃ w', finalize default_config Sample.env_rename_fails
          (Sample.upload_named (lit "report.pdf")) Sample.world = (Ok tt, w')
    ∧ ¬ file_at (dir w') (lit "abc")
    ∧ ¬ file_at (dir w') (lit "abc.json")
    ∧ LogRenameError (lit "abc") EIO ∈ log w'
    ∧ LogCleanedUp (lit "abc") ∈ log w'.
Proof.
  destruct (finalize_failure_falls_back default_config Sample.env_rename_fails
              (Sample.upload_named (lit "report.pdf")) Sample.world
              Sample.world EIO eq_refl)
    as (w' & Hrun & _ & Hfile & Hmeta & _ & _ & _ & Herr & _ & Hlog).
  exists w'. split; [exact Hrun|].
  split; [exact (Hfile eq_refl)|]. split; [exact (Hmeta eq_refl)|].
  split; [exact Herr | exact Hlog].
Defined.

(** C6 as the specification has it fails where the cause of the failure
    also stops the unlinks: on a file system that has turned read-only the
    rename of the sample upload fails, the callback logs the failure, runs
    [cleanupUpload] and logs that it cleaned up, and the partial file and
    the metadata record are both still there. *)
Lemma finalize_fallback_leaves_orphan :
  stat_then_rename Sample.env_read_only
    (Sample.upload_named (lit "report.pdf")) Sample.world
  = (Throw EIO, Sample.world)
  ∧ ∃ w', finalize default_config Sample.env_read_only
            (Sample.upload_named (lit "report.pdf")) Sample.world
          = (Ok tt, w')
      ∧ file_at (dir w') (lit "abc")
      ∧ file_at (dir w') (lit "abc.json")
      ∧ dir w' = dir Sample.world
      ∧ log w' = [LogUploadSize 1024;
                  LogRenameError (lit "abc") EIO;
                  LogCleanedUp (lit "abc")].
Proof.
  split; [by vm_compute|].
  exists (finalize default_config Sample.env_read_only
            (Sample.upload_named (lit "report.pdf")) Sample.world).2.
  split; [by vm_compute|].
  split; [exists (mkStats true 0 1024); by vm_compute|].
  split; [exists (mkStats true 0 120); by vm_compute|].
  split; by vm_compute.
Qed.

(** C3. With an allow-list of image extensions configured, a completed
    upload named [payload.exe] is still given its public name: the list is
    read into the configuration and never consulted. *)
Theorem allowedExtensions_not_applied :
  allowedExtensions Sample.config_images_only
  = Some [lit ".jpg"; lit ".png"; lit "jpg"; lit "png"]
  ∧ path.extname (finalFileName (Sample.upload_named (lit "payload.exe")))
    = lit ".exe"
  ∧ ∃ w', finalize Sample.config_images_only Sample.env_full_disk
            (Sample.upload_named (lit "payload.exe")) Sample.world
          = (Ok tt, w')
      ∧ dir w' !! lit "payload--abc.exe" = Some (mkStats true 0 1024).
Proof.
  split; [by vm_compute|]. split; [by vm_compute|].
  assert (dir Sample.world !! id (Sample.upload_named (lit "payload.exe"))
          = Some (mkStats true 0 1024)) as Hst by (by vm_compute).
  assert (newFileName (Sample.upload_named (lit "payload.exe"))
          = lit "payload--abc.exe") as Hname by (by vm_compute).
  destruct (finalize_success Sample.config_images_only Sample.env_full_disk
              _ _ _ Hst eq_refl eq_refl)
    as (w' & Hrun & Hnew & _).
  rewrite Hname in Hnew. exists w'. split; [exact Hrun | exact Hnew].
Qed.

(** ** The upload route *)

Section Route.

Variable namingFunction : Request → str.
Variable sidecar_bytes : Upload → Z.
Variable handle_other : Request → M Response.

Local Abbreviation route :=
  (uploadApp namingFunction sidecar_bytes handle_other).
Local Abbreviation handler :=
  (tusHandler namingFunction sidecar_bytes handle_other).
Local Abbreviation post :=
  (tus_post namingFunction sidecar_bytes handle_other).

(** A creation request the size check lets through: the tus server runs
    no hook before it stores the upload, since server.js gives none. *)
Lemma run_tus_post (config : Config) (env : Env) (req : Request)
    (len : Z) (w : World) :
  uploadLength req = Some len →
  0 < len →
  num_lt 0 (maxFileSize config) && num_lt (maxFileSize config) len = false →
  post (tusServerOptions config) env req w =
  (Ok (mkResponse 201 (Some (lit "/files/" ++ namingFunction req))),
   mkWorld (<[metadata_name (namingFunction req) :=
                mkStats true (now env)
                  (sidecar_bytes (mkUpload (namingFunction req) len 0
                                           (uploadMetadata req)))]>
              (<[namingFunction req := mkStats true (now env) 0]> (dir w)))
           (log w ++ [LogUploadCreated (namingFunction req)])
           (hits w)).
Proof.
  intros Hlen Hpos Hsize. unfold tus_post. rewrite Hlen.
  apply Z.ltb_lt in Hpos. rewrite Hpos. cbn [negb].
  cbn [tusServerOptions maxSize opt_onUploadCreate]. rewrite Hsize.
  unfold store_create. destruct w as [d l h]. reflexivity.
Qed.

(** The free space of the disk is not an input of the upload route. *)
Lemma uploadApp_ignores_free_space (config : Config) (req : Request)
    (clock : Z) (free free' : option Z) (sf rf : bool) (uf : str → bool) :
  route config (mkEnv clock free sf rf uf) req
  = route config (mkEnv clock free' sf rf uf) req.
Proof. reflexivity. Qed.

(** C1. The disk is full (0 bytes free, under the floor of 5 GiB, and
    [checkAvailableSpace] says so), and a creation request is still
    answered 201, the partial file and its metadata record created:
    nothing on the route calls [checkAvailableSpace]. *)
Theorem create_accepted_on_full_disk :
  let env := Sample.env_full_disk in
  let w := mkWorld ∅ [] ∅ in
  let newId := namingFunction Sample.create_request in
  diskFree env = Some 0
  ∧ minFreeSpace default_config = 5368709120
  ∧ (checkAvailableSpace default_config env w).1 = Ok false
  ∧ ∃ w', route default_config env Sample.create_request w
          = (Ok (mkResponse 201 (Some (lit "/files/" ++ newId))), w')
      ∧ file_at (dir w') newId
      ∧ file_at (dir w') (metadata_name newId).
Proof.
  cbv zeta. split; [reflexivity|]. split; [reflexivity|].
  split; [reflexivity|].
  unfold uploadApp, rateLimit.
  change (skip uploadCreationLimiter Sample.create_request) with false.
  cbv iota. rewrite run_bind.
  change (increment uploadCreationLimiter Sample.env_full_disk
            (ip Sample.create_request) (mkWorld ∅ [] ∅))
    with (@Ok Z 1, mkWorld ∅ [] (<[lit "203.0.113.7" := (1, 901000)]> ∅)).
  cbv iota beta.
  change (max uploadCreationLimiter <? 1) with false. cbv iota.
  unfold tusHandler, try_catch, tusServer_handle.
  change (bool_decide (method Sample.create_request = lit "POST")) with true.
  cbv iota.
  rewrite (run_tus_post default_config _ _ 1024) by reflexivity.
  eexists. split; [reflexivity|]. cbn [dir].
  assert (namingFunction Sample.create_request
          ≠ metadata_name (namingFunction Sample.create_request)) as Hne.
  { intros E. apply (f_equal length) in E. unfold metadata_name in E.
    rewrite length_app in E. simpl in E. lia. }
  split.
  - eexists. split.
    + rewrite lookup_insert_ne by done. apply lookup_insert_eq.
    + reflexivity.
  - eexists. split; [apply lookup_insert_eq | reflexivity].
Qed.

(** C8. For every request that is not a POST (a PATCH, a HEAD, a DELETE),
    and whatever the limiter has counted so far, the limiter hands the
    request on unchanged and counts nothing: the route behaves as the tus
    handler alone. *)
Theorem limiter_applies_to_POST_only (config : Config) (env : Env)
    (req : Request) (w : World) :
  method req ≠ lit "POST" →
  (∀ next : M Response,
      rateLimit uploadCreationLimiter env req next w = next w)
  ∧ route config env req w = handler config env req w.
Proof.
  intros Hm.
  assert (skip uploadCreationLimiter req = true) as Hskip.
  { cbn [skip uploadCreationLimiter]. by rewrite bool_decide_eq_false_2. }
  split.
  - intros next. unfold rateLimit. by rewrite Hskip.
  - unfold uploadApp, rateLimit. by rewrite Hskip.
Qed.

(** A POST is counted, and rejected once the client is over the limit. *)
Lemma limiter_counts_POST (env : Env) (req : Request) (next : M Response)
    (w : World) (n resetTime : Z) :
  method req = lit "POST" →
  hits w !! ip req = Some (n, resetTime) →
  now env < resetTime → 50 ≤ n →
  rateLimit uploadCreationLimiter env req next w
  = (Ok (mkResponse 429 None),
     mkWorld (dir w) (log w) (<[ip req := (n + 1, resetTime)]> (hits w))).
Proof.
  intros Hm Hh Hnow Hn. unfold rateLimit.
  cbn [skip uploadCreationLimiter]. rewrite bool_decide_eq_true_2 by done.
  cbn [negb]. rewrite run_bind. unfold increment. rewrite Hh.
  assert ((resetTime <=? now env) = false) as -> by lia.
  assert ((max uploadCreationLimiter <? n + 1) = true) as ->
    by (apply Z.ltb_lt; cbn [max uploadCreationLimiter]; lia).
  reflexivity.
Qed.

End Route.

Lemma limiter_applies_to_POST_only_witness :
  (∀ next : M Response,
      rateLimit uploadCreationLimiter Sample.env_full_disk
        Sample.patch_request next Sample.throttled = next Sample.throttled)
  ∧ uploadApp (fun _ => lit "abc") (fun _ => 120)
      (fun _ => ret (mkResponse 204 None))
      default_config Sample.env_full_disk Sample.patch_request Sample.throttled
    = tusHandler (fun _ => lit "abc") (fun _ => 120)
        (fun _ => ret (mkResponse 204 None))
        default_config Sample.env_full_disk Sample.patch_request
        Sample.throttled.
Proof.
  apply (limiter_applies_to_POST_only (fun _ => lit "abc") (fun _ => 120)
           (fun _ => ret (mkResponse 204 None))
           default_config Sample.env_full_disk Sample.patch_request
           Sample.throttled).
  vm_compute. discriminate.
Defined.

(** ** The sweep of cleanup.js *)

Lemma sweep_cons (p : cleanup.Platform) (clock : Z) (file : str)
    (rest : list str) (deletedCount freedSpace : Z) :
  cleanup.sweep p clock (file :: rest) deletedCount freedSpace =
  if bool_decide (file = cleanup.gitkeep)
  then cleanup.sweep p clock rest deletedCount freedSpace
  else
    stats ← stat (cleanup.stat_fails p file) file;
    if isFile stats then
      if cleanup.MAX_AGE_MS <? clock - mtimeMs stats then
        unlink (cleanup.unlink_fails p file) file;;
        logger (ConsoleDeleted file (size stats));;
        cleanup.sweep p clock rest (deletedCount + 1)
                      (freedSpace + size stats)
      else cleanup.sweep p clock rest deletedCount freedSpace
    else cleanup.sweep p clock rest deletedCount freedSpace.
Proof. reflexivity. Qed.

Lemma expired_true (clock : Z) (name : str) (st : Stats) :
  expired clock name st = true
  ↔ name ≠ cleanup.gitkeep ∧ isFile st = true
    ∧ clock - mtimeMs st > cleanup.MAX_AGE_MS.
Proof.
  unfold expired. rewrite !andb_true_iff, negb_true_iff.
  rewrite bool_decide_eq_false, Z.ltb_lt. intuition lia.
Qed.

Lemma expired_gitkeep (clock : Z) (st : Stats) :
  expired clock cleanup.gitkeep st = false.
Proof. unfold expired. by rewrite bool_decide_eq_true_2. Qed.

(** The loop, whatever the file system does.  Every entry is left as it
    was or removed, and only an entry that passes the test of the loop is
    removed; when the loop comes to its end, every listed entry that passes
    the test has been removed. *)
Lemma run_sweep (p : cleanup.Platform) (clock : Z) (files : list str) :
  ∀ (w : World) (deletedCount freedSpace : Z),
    ∃ r w',
      cleanup.sweep p clock files deletedCount freedSpace w = (r, w')
      ∧ hits w' = hits w
      ∧ (∀ name, dir w' !! name = dir w !! name
                 ∨ (dir w' !! name = None
                    ∧ ∃ st, dir w !! name = Some st
                            ∧ expired clock name st = true))
      ∧ (∀ c, r = Ok c → ∀ name st,
           name ∈ files → dir w !! name = Some st →
           expired clock name st = true → dir w' !! name = None).
Proof.
  induction files as [|file rest IH]; intros w dc fs.
  { exists (Ok (dc, fs)), w. split; [done|]. split; [done|].
    split; [by left|]. intros c _ name st H. by apply elem_of_nil in H. }
  rewrite sweep_cons.
  assert ((∀ st, dir w !! file = Some st → expired clock file st = false) →
          ∃ r w',
            cleanup.sweep p clock rest dc fs w = (r, w')
            ∧ hits w' = hits w
            ∧ (∀ name, dir w' !! name = dir w !! name
                       ∨ (dir w' !! name = None
                          ∧ ∃ st, dir w !! name = Some st
                                  ∧ expired clock name st = true))
            ∧ (∀ c, r = Ok c → ∀ name st,
                 name ∈ file :: rest → dir w !! name = Some st →
                 expired clock name st = true → dir w' !! name = None))
    as Hskip.
  { intros Hkeep.
    destruct (IH w dc fs) as (r & w' & Hrun & Hh & Hsafe & Hall).
    exists r, w'. do 3 (split; [done|]).
    intros c Hc name st [->|Hin]%elem_of_cons Hst Hexp.
    - rewrite (Hkeep _ Hst) in Hexp. discriminate.
    - by apply (Hall c Hc name st). }
  assert (∀ e : Errno,
          ∃ (r : Res (Z * Z)) w',
            (@Throw (Z * Z) e, w) = (r, w')
            ∧ hits w' = hits w
            ∧ (∀ name, dir w' !! name = dir w !! name
                       ∨ (dir w' !! name = None
                          ∧ ∃ st, dir w !! name = Some st
                                  ∧ expired clock name st = true))
            ∧ (∀ c, r = Ok c → ∀ name st,
                 name ∈ file :: rest → dir w !! name = Some st →
                 expired clock name st = true → dir w' !! name = None))
    as Hstop.
  { intros e. exists (Throw e), w. split; [done|]. split; [done|].
    split; [by left|]. intros c Hc. discriminate. }
  case_bool_decide as Hgit.
  { apply Hskip. intros st _. subst file. apply expired_gitkeep. }
  rewrite run_bind, run_stat.
  destruct (dir w !! file) as [st|] eqn:Hst; [|apply Hstop].
  destruct (cleanup.stat_fails p file); [apply Hstop|].
  destruct (isFile st) eqn:Hfile.
  2:{ apply Hskip. intros st' [= <-]. unfold expired.
      by rewrite Hfile, andb_false_r. }
  destruct (cleanup.MAX_AGE_MS <? clock - mtimeMs st) eqn:Hage.
  2:{ apply Hskip. intros st' [= <-]. unfold expired.
      by rewrite Hage, andb_false_r. }
  rewrite run_bind, run_unlink, Hst.
  destruct (cleanup.unlink_fails p file); [apply Hstop|].
  rewrite Hfile. run_step.
  set (w1 := mkWorld (delete file (dir w))
                     (log w ++ [ConsoleDeleted file (size st)]) (hits w)).
  destruct (IH w1 (dc + 1) (fs + size st))
    as (r & w' & Hrun & Hh & Hsafe & Hall).
  exists r, w'. split; [done|]. split; [by rewrite Hh|].
  assert (dir w' !! file = None) as Hgone.
  { destruct (Hsafe file) as [E|[E _]]; [|done].
    rewrite E. subst w1. cbn [dir]. apply lookup_delete_eq. }
  assert (expired clock file st = true) as Hexp.
  { unfold expired. by rewrite Hfile, Hage, bool_decide_eq_false_2. }
  split.
  - intros name. destruct (decide (name = file)) as [->|Hne].
    + right. split; [done|]. by exists st.
    + destruct (Hsafe name) as [E|(E & st' & Hst' & Hexp')].
      * left. rewrite E. subst w1. cbn [dir]. by rewrite lookup_delete_ne.
      * right. split; [done|]. exists st'. split; [|done].
        subst w1. cbn [dir] in Hst'. by rewrite lookup_delete_ne in Hst'.
  - intros c Hc name st' [->|Hin]%elem_of_cons Hst' Hexp'; [done|].
    destruct (decide (name = file)) as [->|Hne]; [done|].
    apply (Hall c Hc name st' Hin); [|done].
    subst w1. cbn [dir]. by rewrite lookup_delete_ne.
Qed.

(** The script around its loop. *)
Lemma run_cleanupOldFiles_sweep (p : cleanup.Platform) (clock : Z)
    (w : World) :
  cleanup.cleanupOldFiles p clock w =
  if cleanup.readdir_fails p
  then (Ok (cleanup.Exited 1),
        mkWorld (dir w)
                (log w ++ [ConsoleCleaning; ConsoleCleanupFailed ENOENT])
                (hits w))
  else
    match cleanup.sweep p clock
            (cleanup.listing p (map fst (map_to_list (dir w)))) 0 0
            (mkWorld (dir w) (log w ++ [ConsoleCleaning]) (hits w)) with
    | (Ok (deletedCount, freedSpace), w') =>
        (Ok cleanup.Returned,
         mkWorld (dir w')
                 (log w' ++ [ConsoleSummary deletedCount freedSpace])
                 (hits w'))
    | (Throw e, w') =>
        (Ok (cleanup.Exited 1),
         mkWorld (dir w') (log w' ++ [ConsoleCleanupFailed e]) (hits w'))
    end.
Proof.
  unfold cleanup.cleanupOldFiles, try_catch, readdir.
  run_step. cbn [get_dir]. run_step.
  destruct (cleanup.readdir_fails p).
  - unfold throw. run_step. by rewrite <- app_assoc.
  - unfold ret at 1. run_step.
    destruct (cleanup.sweep _ _ _ _ _ _) as [[[dc fs]|e] w']; by run_step.
Qed.

(** How the script can end. *)
Lemma outcome_cases (p : cleanup.Platform) (clock : Z) (d : Dir) :
  cleanup.outcome p clock d = Ok cleanup.Returned
  ∨ cleanup.outcome p clock d = Ok (cleanup.Exited 1).
Proof.
  unfold cleanup.outcome. rewrite run_cleanupOldFiles_sweep.
  destruct (cleanup.readdir_fails p); [by right|].
  destruct (cleanup.sweep _ _ _ _ _ _) as [[[dc fs]|e] w'];
    [by left | by right].
Qed.

(** Whatever happens, an entry is as it was or it is gone, and only an
    entry that passes the test of the loop is gone. *)
Lemma swept_safe (p : cleanup.Platform) (clock : Z) (d : Dir) (name : str) :
  cleanup.swept p clock d !! name = d !! name
  ∨ (cleanup.swept p clock d !! name = None
     ∧ ∃ st, d !! name = Some st ∧ expired clock name st = true).
Proof.
  unfold cleanup.swept. rewrite run_cleanupOldFiles_sweep.
  destruct (cleanup.readdir_fails p); [by left|].
  cbn [dir log hits app].
  destruct (run_sweep p clock (cleanup.listing p (map fst (map_to_list d)))
              (mkWorld d [ConsoleCleaning] ∅) 0 0)
    as (r & w' & Hrun & _ & Hsafe & _).
  rewrite Hrun. specialize (Hsafe name). cbn [dir] in Hsafe.
  by destruct r as [[dc fs]|e].
Qed.

(** A run that comes to its end on a listing of every name has removed
    every entry that passes the test. *)
Lemma swept_complete (p : cleanup.Platform) (clock : Z) (d : Dir)
    (name : str) (st : Stats) :
  cleanup.lists_all p →
  cleanup.outcome p clock d = Ok cleanup.Returned →
  d !! name = Some st → expired clock name st = true →
  cleanup.swept p clock d !! name = None.
Proof.
  unfold cleanup.outcome, cleanup.swept. intros Hperm.
  rewrite run_cleanupOldFiles_sweep.
  destruct (cleanup.readdir_fails p); [discriminate|].
  cbn [dir log hits app].
  destruct (run_sweep p clock (cleanup.listing p (map fst (map_to_list d)))
              (mkWorld d [ConsoleCleaning] ∅) 0 0)
    as (r & w' & Hrun & _ & _ & Hall).
  rewrite Hrun. destruct r as [[dc fs]|e]; [|discriminate].
  intros _ Hst Hexp. cbn [snd dir].
  apply (Hall _ eq_refl name st); [|done|done].
  rewrite (Hperm _). apply list_elem_of_fmap. exists (name, st).
  split; [done|]. by apply elem_of_map_to_list.
Qed.

Lemma swept_lookup (p : cleanup.Platform) (clock : Z) (d : Dir)
    (name : str) :
  cleanup.lists_all p →
  cleanup.outcome p clock d = Ok cleanup.Returned →
  cleanup.swept p clock d !! name =
  match d !! name with
  | Some st => if expired clock name st then None else Some st
  | None => None
  end.
Proof.
  intros Hperm Hret.
  destruct (swept_safe p clock d name) as [E|(E & st & Hst & Hexp)].
  - rewrite E. destruct (d !! name) as [st|] eqn:Hst; [|done].
    destruct (expired clock name st) eqn:Hexp; [|done].
    rewrite <- E. by apply (swept_complete p clock d name st).
  - by rewrite E, Hst, Hexp.
Qed.

(** C2, as the code has it.  The script works on its own directory, the
    [uploads] beside server.js.  When its run comes to its end (no call
    was refused on the way) on a listing of every name, then for every
    entry of that directory: the entry is removed if and only if it is not
    the placeholder [.gitkeep], it is a regular file, and it was last
    modified more than thirty days before the sweep; the status of the
    upload plays no part, so that a finalized file goes like any other.  An
    entry that stays is unchanged. *)
Theorem sweep_removes_old_files (p : cleanup.Platform) (clock : Z) (d : Dir)
    (name : str) (st : Stats) :
  cleanup.lists_all p →
  cleanup.outcome p clock d = Ok cleanup.Returned →
  d !! name = Some st →
  (cleanup.swept p clock d !! name = None
   ↔ name ≠ cleanup.gitkeep ∧ isFile st = true
     ∧ clock - mtimeMs st > cleanup.MAX_AGE_MS)
  ∧ (cleanup.swept p clock d !! name = None
     ∨ cleanup.swept p clock d !! name = Some st).
Proof.
  intros Hperm Hret Hst.
  rewrite (swept_lookup p clock d name Hperm Hret), Hst, <- expired_true.
  destruct (expired clock name st).
  - split; [done|]. by left.
  - split; [done|]. by right.
Qed.

Lemma sweep_removes_old_files_witness :
  cleanup.outcome Sample.quiet (cleanup.MAX_AGE_MS + 1) Sample.stored
  = Ok cleanup.Returned
  ∧ (cleanup.swept Sample.quiet (cleanup.MAX_AGE_MS + 1) Sample.stored
       !! lit "abc" = None
     ↔ lit "abc" ≠ cleanup.gitkeep ∧ isFile (mkStats true 0 1024) = true
       ∧ cleanup.MAX_AGE_MS + 1 - mtimeMs (mkStats true 0 1024)
         > cleanup.MAX_AGE_MS)
  ∧ (cleanup.swept Sample.quiet (cleanup.MAX_AGE_MS + 1) Sample.stored
       !! lit "abc" = None
     ∨ cleanup.swept Sample.quiet (cleanup.MAX_AGE_MS + 1) Sample.stored
         !! lit "abc" = Some (mkStats true 0 1024)).
Proof.
  assert (cleanup.outcome Sample.quiet (cleanup.MAX_AGE_MS + 1) Sample.stored
          = Ok cleanup.Returned) as Hret by (by vm_compute).
  split; [exact Hret|].
  apply (sweep_removes_old_files Sample.quiet (cleanup.MAX_AGE_MS + 1)
           Sample.stored (lit "abc") (mkStats true 0 1024)).
  - intros names. reflexivity.
  - exact Hret.
  - by vm_compute.
Defined.

(** C2, as the specification words it, fails on a finalized upload.  The
    server stores where the script sweeps (it runs with its default
    configuration); thirty days and a millisecond after [report.pdf] was
    completed and given its public name, a run of the script that meets no
    failure removes it, though the rule of the specification spares every
    Completed upload. *)
Lemma sweep_removes_completed_upload :
  let name := lit "report--abc.pdf" in
  let st := mkStats true 0 1024 in
  let clock := cleanup.MAX_AGE_MS + 1 in
  let d := cleanup.directory default_config Sample.finalized ∅ in
  uploadDir default_config = cleanup.UPLOAD_DIR
  ∧ d !! name = Some st
  ∧ Sample.status_of name = Completed
  ∧ cleanup.outcome Sample.quiet clock d = Ok cleanup.Returned
  ∧ cleanup.swept Sample.quiet clock d !! name = None
  ∧ ¬ spec_expiry_rule Sample.status_of cleanup.MAX_AGE_MS clock name st
  ∧ ¬ (cleanup.swept Sample.quiet clock d !! name = None
       ↔ spec_expiry_rule Sample.status_of cleanup.MAX_AGE_MS clock name st).
Proof.
  cbv zeta.
  assert (Sample.status_of (lit "report--abc.pdf") = Completed) as Hs
    by (by vm_compute).
  assert (cleanup.swept Sample.quiet (cleanup.MAX_AGE_MS + 1)
            (cleanup.directory default_config Sample.finalized ∅)
          !! lit "report--abc.pdf" = None) as Hgone by (by vm_compute).
  split; [reflexivity|]. split; [by vm_compute|]. split; [done|].
  split; [by vm_compute|]. split; [done|].
  assert (¬ spec_expiry_rule Sample.status_of cleanup.MAX_AGE_MS
            (cleanup.MAX_AGE_MS + 1) (lit "report--abc.pdf")
            (mkStats true 0 1024)) as Hrule
    by (intros (_ & Hne & _); by apply Hne).
  split; [done|]. intros [Hto _]. by apply Hrule, Hto.
Qed.

(* ===================================================================== *)
(** * Further properties of the code *)
(* ===================================================================== *)

(** ** The disk probe and the health route *)

(** What [checkAvailableSpace] does, case by case. *)
Lemma run_checkAvailableSpace (config : Config) (env : Env) (w : World) :
  checkAvailableSpace config env w =
  match diskFree env with
  | Some free =>
      if num_lt free (minFreeSpace config)
      then (Ok false,
            mkWorld (dir w)
                    (log w ++ [LogDiskSpace free; LogLowDiskSpace free])
                    (hits w))
      else (Ok true, mkWorld (dir w) (log w ++ [LogDiskSpace free]) (hits w))
  | None =>
      (Ok false, mkWorld (dir w) (log w ++ [LogDiskSpaceError EIO]) (hits w))
  end.
Proof.
  unfold checkAvailableSpace, try_catch, checkDiskSpace.
  destruct (diskFree env) as [free|].
  - run_step. unfold ret at 1. run_step.
    destruct (num_lt free (minFreeSpace config)); [|done].
    run_step. by rewrite <- app_assoc.
  - unfold throw at 1. by run_step.
Qed.

(** X2. The health route and [checkAvailableSpace] draw the same line as
    long as the floor is a number: the route answers 200 [healthy] when the
    disk reports at least the floor and [checkAvailableSpace] answers
    [true], 503 [degraded] when it reports less and [checkAvailableSpace]
    answers [false], and 503 [error] when the probe throws.  When the floor
    is [NaN] (MIN_FREE_SPACE is set to something that is not a number) they
    part: every comparison is false, so the route answers 503 [degraded]
    and [checkAvailableSpace] answers [true], whatever the disk reports. *)
Theorem health_and_checkAvailableSpace (config : Config) (env : Env)
    (w : World) :
  let r := (health config env).1 in
  let ok := (checkAvailableSpace config env w).1 in
  match diskFree env, minFreeSpace config with
  | Some free, Num floor =>
      if floor <=? free
      then health_code r = 200 ∧ health_status r = healthy ∧ ok = Ok true
      else health_code r = 503 ∧ health_status r = degraded ∧ ok = Ok false
  | Some free, NaN =>
      health_code r = 503 ∧ health_status r = degraded ∧ ok = Ok true
  | None, _ =>
      health_code r = 503 ∧ health_status r = health_error
      ∧ (health config env).2 = Some EIO ∧ ok = Ok false
  end.
Proof.
  cbv zeta. rewrite run_checkAvailableSpace. unfold health.
  destruct (diskFree env) as [free|]; [|done].
  destruct (minFreeSpace config) as [floor|]; [|done].
  cbn [num_lt num_ge].
  destruct (floor <=? free) eqn:Hhas;
    destruct (free <? floor) eqn:Hlow; try lia; done.
Qed.

(** ** More on sanitizeFilename *)

Lemma replace_dotdot_clean (s : str) :
  ¬ includes s (lit "..") → replace_dotdot s = s.
Proof.
  induction s as [|c s IH]; intros Hno; [done|].
  destruct s as [|d r]; [done|].
  rewrite replace_dotdot_cons2.
  destruct ((c =? DOT)%N && (d =? DOT)%N) eqn:E.
  - exfalso. apply Hno. apply andb_prop in E as [->%N.eqb_eq ->%N.eqb_eq].
    by exists [], r.
  - f_equal. apply IH. intros (a & b & Hab). apply Hno.
    exists (c :: a), b. by rewrite Hab.
Qed.

Lemma trimStart_head (s : str) (c : N) :
  head (trimStart s) = Some c → is_white_space c = false.
Proof.
  induction s as [|x s IH]; [done|]. simpl.
  destruct (is_white_space x) eqn:E; [done|]. by intros [= <-].
Qed.

Lemma trimStart_clean (s : str) :
  (∀ c, head s = Some c → is_white_space c = false) → trimStart s = s.
Proof.
  destruct s as [|x s]; [done|]. intros H. simpl. by rewrite (H x).
Qed.

Lemma head_rev (s : str) : head (rev s) = last s.
Proof. rewrite rev_alt. apply head_reverse. Qed.

Lemma trimEnd_clean (s : str) :
  (∀ c, last s = Some c → is_white_space c = false) → trimEnd s = s.
Proof.
  intros H. unfold trimEnd. rewrite trimStart_clean.
  - apply rev_involutive.
  - intros c. rewrite head_rev. apply H.
Qed.

Lemma trimEnd_last (s : str) (c : N) :
  last (trimEnd s) = Some c → is_white_space c = false.
Proof.
  unfold trimEnd. rewrite <- head_rev, rev_involutive. apply trimStart_head.
Qed.

Lemma trimEnd_prefix (s : str) : ∃ b, s = trimEnd s ++ b.
Proof.
  unfold trimEnd.
  assert (∀ t : str, ∃ a, t = a ++ trimStart t) as Hsuffix.
  { induction t as [|x t [a IH]]; [by exists []|]. simpl.
    destruct (is_white_space x); [|by exists []].
    exists (x :: a). simpl. by rewrite <- IH. }
  destruct (Hsuffix (rev s)) as [a Ha]. exists (rev a).
  rewrite <- rev_app_distr, <- Ha. symmetry. apply rev_involutive.
Qed.

Lemma trim_head (s : str) (c : N) :
  head (trim s) = Some c → is_white_space c = false.
Proof.
  unfold trim. intros H. apply (trimStart_head s).
  destruct (trimEnd_prefix (trimStart s)) as [b Hb]. rewrite Hb.
  destruct (trimEnd (trimStart s)); [done|]. exact H.
Qed.

(** X3. A name that needs no cleaning is returned as it is: not empty, at
    most 255 code units, no character of the replaced class, no two dots in
    a row, no white space at either end. *)
Theorem sanitizeFilename_clean_unchanged (filename : str) :
  filename ≠ [] →
  (length filename ≤ 255)%nat →
  (∀ c, c ∈ filename → hostile c = false) →
  ¬ includes filename (lit "..") →
  (∀ c, head filename = Some c → is_white_space c = false) →
  (∀ c, last filename = Some c → is_white_space c = false) →
  sanitizeFilename filename = filename.
Proof.
  intros Hne Hlen Hclass Hdots Hhead Hlast.
  rewrite sanitizeFilename_truthy by (by destruct filename).
  rewrite replace_hostile_id by (by apply Forall_forall).
  rewrite (replace_dotdot_clean _ Hdots).
  unfold trim. rewrite (trimStart_clean _ Hhead), (trimEnd_clean _ Hlast).
  by apply take_ge.
Qed.

Lemma sanitizeFilename_clean_unchanged_witness :
  sanitizeFilename (lit "Annual report 2024.pdf")
  = lit "Annual report 2024.pdf".
Proof.
  apply sanitizeFilename_clean_unchanged.
  - discriminate.
  - vm_compute. lia.
  - intros c Hc. vm_compute in Hc.
    repeat (apply elem_of_cons in Hc as [->|Hc]; [reflexivity|]).
    by apply elem_of_nil in Hc.
  - by apply dotdot_free_sound.
  - intros c [= <-]. reflexivity.
  - intros c [= <-]. reflexivity.
Defined.

(** X4. What [sanitizeFilename] returns never starts with white space, and
    it ends with white space only when it was cut at 255 code units. *)
Theorem sanitizeFilename_trimmed (filename : str) (c : N) :
  (head (sanitizeFilename filename) = Some c → is_white_space c = false)
  ∧ (last (sanitizeFilename filename) = Some c →
     (length (sanitizeFilename filename) < 255)%nat →
     is_white_space c = false).
Proof.
  destruct (truthy filename) eqn:Ht.
  - rewrite (sanitizeFilename_truthy _ Ht).
    set (t := replace_dotdot (replace_hostile filename)). split.
    + intros H. apply (trim_head t).
      destruct (trim t); [done|]. exact H.
    + intros H Hlen. rewrite length_take in Hlen.
      rewrite take_ge in H by lia. revert H. apply trimEnd_last.
  - destruct filename; [|discriminate].
    change (sanitizeFilename []) with unnamed_file.
    split; [by intros [= <-] | by intros [= <-] _].
Qed.

Lemma replace_dotdot_length (s : str) :
  (length (replace_dotdot s) ≤ length s)%nat.
Proof.
  assert (∀ n (t : str), (length t ≤ n)%nat →
            (length (replace_dotdot t) ≤ length t)%nat) as H.
  { induction n as [|n IH]; intros t Hn.
    - destruct t; [done | simpl in Hn; lia].
    - destruct t as [|c [|d r]]; [done | done |].
      rewrite replace_dotdot_cons2.
      destruct ((c =? DOT)%N && (d =? DOT)%N).
      + specialize (IH r). simpl in *. lia.
      + specialize (IH (d :: r)). simpl in *. lia. }
  by apply (H (length s)).
Qed.

(** X5. Sanitizing a non-empty name adds nothing but dashes and never
    makes the name longer: every character of the result is a dash or a
    character of the name. *)
Theorem sanitizeFilename_adds_only_dashes (filename : str) :
  filename ≠ [] →
  (∀ c, c ∈ sanitizeFilename filename → c = DASH ∨ c ∈ filename)
  ∧ (length (sanitizeFilename filename) ≤ length filename)%nat.
Proof.
  intros Hne. assert (truthy filename = true) as Ht by (by destruct filename).
  split.
  - intros c Hc.
    eapply infix_of_elem in Hc; [| by apply sanitizeFilename_infix].
    apply (replace_dotdot_elem_le _ _ _ (le_n _)) in Hc as [->|Hc]; [by left|].
    unfold replace_hostile in Hc.
    apply list_elem_of_fmap in Hc as (x & -> & Hx).
    destruct (hostile x); [by left | by right].
  - pose proof (infix_of_length _ _ (sanitizeFilename_infix _ Ht)) as H1.
    pose proof (replace_dotdot_length (replace_hostile filename)) as H2.
    unfold replace_hostile in H2 at 2. rewrite length_map in H2. lia.
Qed.

Lemma sanitizeFilename_adds_only_dashes_witness :
  (∀ c, c ∈ sanitizeFilename (lit "../a?b.txt") →
        c = DASH ∨ c ∈ lit "../a?b.txt")
  ∧ (length (sanitizeFilename (lit "../a?b.txt"))
     ≤ length (lit "../a?b.txt"))%nat.
Proof.
  apply (sanitizeFilename_adds_only_dashes (lit "../a?b.txt")).
  discriminate.
Defined.

(** ** The allow-list of the configuration *)

Lemma split_comma_not_nil (s : str) : split_comma s ≠ [].
Proof.
  destruct s as [|c r]; [done|]. simpl.
  destruct (c =? 44)%N; [done|]. by destruct (split_comma r).
Qed.

Lemma split_comma_piece (x : str) :
  COMMA ∉ x → split_comma x = [x].
Proof.
  induction x as [|c x IH]; intros Hx; [done|].
  apply not_elem_of_cons in Hx as [Hc Hx]. simpl.
  assert ((c =? 44)%N = false) as -> by (apply N.eqb_neq; by intros ->).
  by rewrite (IH Hx).
Qed.

Lemma split_comma_app (x rest : str) :
  COMMA ∉ x →
  split_comma (x ++ COMMA :: rest) = x :: split_comma rest.
Proof.
  induction x as [|c x IH]; intros Hx; [done|].
  apply not_elem_of_cons in Hx as [Hc Hx].
  change ((c :: x) ++ COMMA :: rest) with (c :: (x ++ COMMA :: rest)).
  cbn [split_comma].
  assert ((c =? 44)%N = false) as -> by (apply N.eqb_neq; by intros ->).
  by rewrite (IH Hx).
Qed.

(** Splitting at the commas undoes joining with commas. *)
Lemma split_comma_join (pieces : list str) :
  pieces ≠ [] →
  Forall (fun x => COMMA ∉ x) pieces →
  split_comma (join_comma pieces) = pieces.
Proof.
  intros Hne Hall. induction Hall as [|x rest Hx Hrest IH]; [done|].
  destruct rest as [|y rest].
  - by apply split_comma_piece.
  - change (join_comma (x :: y :: rest))
      with (x ++ COMMA :: join_comma (y :: rest)).
    rewrite (split_comma_app _ _ Hx). f_equal. by apply IH.
Qed.

(** The allow-list is [null] exactly when the variable is unset or is the
    star. *)
Lemma parseAllowedExtensions_null (v : option str) :
  parseAllowedExtensions v = None ↔ v = None ∨ v = Some (lit "*").
Proof.
  destruct v as [s|]; simpl; [|by split; [left|]].
  case_bool_decide as Hs; split; try done.
  - intros _. right. by rewrite Hs.
  - intros [?|[= ?]]; done.
Qed.

(** X6. A comma-separated list of non-empty extensions, put in
    [ALLOWED_EXTENSIONS], is read back entry by entry, in order. *)
Theorem parseAllowedExtensions_round_trip (entries : list str) :
  entries ≠ [] →
  Forall (fun x => x ≠ [] ∧ COMMA ∉ x) entries →
  join_comma entries ≠ lit "*" →
  parseAllowedExtensions (Some (join_comma entries)) = Some entries.
Proof.
  intros Hne Hall Hstar. simpl.
  rewrite bool_decide_eq_false_2 by done. f_equal.
  rewrite split_comma_join; [| done |].
  - clear Hne Hstar. induction Hall as [|x rest [Hx _] _ IH]; [done|].
    rewrite filter_cons_True by (by destruct x). by rewrite IH.
  - eapply Forall_impl; [exact Hall|]. by intros x [_ ?].
Qed.

Lemma parseAllowedExtensions_round_trip_witness :
  parseAllowedExtensions (Some (join_comma [lit ".jpg"; lit ".png"]))
  = Some [lit ".jpg"; lit ".png"].
Proof.
  apply (parseAllowedExtensions_round_trip [lit ".jpg"; lit ".png"]).
  - discriminate.
  - repeat constructor; try discriminate;
      intros H; vm_compute in H;
      repeat (apply elem_of_cons in H as [H|H]; [discriminate|]);
      by apply elem_of_nil in H.
  - vm_compute. discriminate.
Defined.

(** X7. Whatever [ALLOWED_EXTENSIONS] holds, no entry of the allow-list is
    empty and none holds a comma: empty pieces (a doubled, leading or
    trailing comma, the empty value) are dropped. *)
Theorem parseAllowedExtensions_entries (v : option str) (entries : list str)
    (x : str) :
  parseAllowedExtensions v = Some entries → x ∈ entries →
  x ≠ [] ∧ COMMA ∉ x.
Proof.
  destruct v as [s|]; simpl; [|done].
  case_bool_decide as Hstar; [done|]. intros [= <-] Hx.
  apply list_elem_of_filter in Hx as [Hx Hin]. split; [by destruct x|].
  clear Hx Hstar. revert x Hin. induction s as [|c s IH]; intros x Hin.
  - apply elem_of_cons in Hin as [->|Hin]; [apply not_elem_of_nil|].
    by apply elem_of_nil in Hin.
  - simpl in Hin. destruct (c =? 44)%N eqn:Ec.
    + apply elem_of_cons in Hin as [->|Hin]; [apply not_elem_of_nil|].
      by apply IH.
    + pose proof (split_comma_not_nil s) as Hnil.
      destruct (split_comma s) as [|p ps]; [done|].
      apply elem_of_cons in Hin as [->|Hin].
      * apply not_elem_of_cons. split.
        -- intros <-. by rewrite N.eqb_refl in Ec.
        -- apply IH, elem_of_cons. by left.
      * apply IH, elem_of_cons. by right.
Qed.

Lemma parseAllowedExtensions_entries_witness :
  lit "png" ≠ [] ∧ COMMA ∉ lit "png".
Proof.
  apply (parseAllowedExtensions_entries (Some (lit ",jpg,,png,"))
           [lit "jpg"; lit "png"] (lit "png")).
  - by vm_compute.
  - apply elem_of_cons. right. apply elem_of_cons. by left.
Defined.

(** ** More on cleanupUpload and finalization *)

Lemma unlinked_absent (fault : bool) (name : str) (d : Dir) :
  ¬ file_at d name → unlinked fault name d = d.
Proof.
  intros Hno. unfold unlinked, without_file. destruct fault; [done|].
  destruct (d !! name) as [st|] eqn:Hst; [|done].
  destruct (isFile st) eqn:Hf; [|done].
  exfalso. apply Hno. by exists st.
Qed.

(** X8. Once an upload is cleaned up with no unlink refused, cleaning it
    up again changes nothing more in the directory, whatever the system
    refuses by then: the first run has left nothing for the second to
    remove. *)
Theorem cleanupUpload_idempotent (env env' : Env) (uploadId : str)
    (w : World) :
  unlink_fault env uploadId = false →
  unlink_fault env (uploadId ++ lit ".json") = false →
  let w1 := (cleanupUpload env uploadId w).2 in
  dir (cleanupUpload env' uploadId w1).2 = dir w1
  ∧ (cleanupUpload env' uploadId w1).1 = Ok tt.
Proof.
  intros Hfile Hmeta. cbv zeta.
  pose proof (cleanupUpload_dir env uploadId w) as H. cbv zeta in H.
  destruct H as (H1 & H2 & _).
  rewrite (run_cleanupUpload env'). cbn [fst snd dir]. split; [|done].
  rewrite (unlinked_absent _ uploadId) by auto.
  apply unlinked_absent. auto.
Qed.

Lemma cleanupUpload_idempotent_witness :
  dir (cleanupUpload Sample.env_read_only (lit "abc")
         (cleanupUpload Sample.env_full_disk (lit "abc") Sample.world).2).2
  = dir (cleanupUpload Sample.env_full_disk (lit "abc") Sample.world).2
  ∧ (cleanupUpload Sample.env_read_only (lit "abc")
       (cleanupUpload Sample.env_full_disk (lit "abc") Sample.world).2).1
    = Ok tt.
Proof.
  exact (cleanupUpload_idempotent Sample.env_full_disk Sample.env_read_only
           (lit "abc") Sample.world eq_refl eq_refl).
Defined.

(** X9. Finalization touches three names at most: whatever happens, every
    entry other than the partial file, its metadata record and the public
    name is as it was, and so are the counters of the limiter. *)
Theorem finalize_frame (config : Config) (env : Env) (upload : Upload)
    (w : World) (name : str) :
  name ≠ id upload →
  name ≠ metadata_name (id upload) →
  name ≠ newFileName upload →
  dir (finalize config env upload w).2 !! name = dir w !! name
  ∧ hits (finalize config env upload w).2 = hits w.
Proof.
  intros Hid Hmeta Hnew. unfold metadata_name in Hmeta.
  rewrite run_finalize, run_cleanupUpload. cbv zeta.
  destruct (dir w !! id upload) as [st|];
    [destruct (stat_fault env); [|destruct (rename_fault env)]|];
    cbn [snd dir hits]; (split; [|done]);
    rewrite !unlinked_lookup_ne by done; try done.
  rewrite lookup_insert_ne by done. by rewrite lookup_delete_ne.
Qed.

Lemma finalize_frame_witness :
  dir (finalize default_config Sample.env_full_disk
         (Sample.upload_named (lit "report.pdf"))
         (mkWorld (<[lit "other" := mkStats true 5 77]> Sample.stored) [] ∅)).2
    !! lit "other"
  = dir (mkWorld (<[lit "other" := mkStats true 5 77]> Sample.stored) [] ∅)
      !! lit "other"
  ∧ hits (finalize default_config Sample.env_full_disk
            (Sample.upload_named (lit "report.pdf"))
            (mkWorld (<[lit "other" := mkStats true 5 77]> Sample.stored)
                     [] ∅)).2
    = hits (mkWorld (<[lit "other" := mkStats true 5 77]> Sample.stored) [] ∅).
Proof.
  apply (finalize_frame default_config Sample.env_full_disk
           (Sample.upload_named (lit "report.pdf"))
           (mkWorld (<[lit "other" := mkStats true 5 77]> Sample.stored) [] ∅)
           (lit "other")); vm_compute; discriminate.
Defined.

(** X10. Once an upload is finalized, a second run of the timer callback,
    or a cleanup of the same identifier, leaves the public file where it
    is: the second run finds no partial file, falls back to cleanup, and
    cleanup only looks at the two internal names. *)
Theorem finalize_twice_keeps_public_file (config : Config) (env env' : Env)
    (upload : Upload) (w : World) (st : Stats) :
  dir w !! id upload = Some st →
  stat_fault env = false → rename_fault env = false →
  let w1 := (finalize config env upload w).2 in
  (finalize config env' upload w1).1 = Ok tt
  ∧ dir (finalize config env' upload w1).2 !! newFileName upload = Some st
  ∧ dir (cleanupUpload env' (id upload) w1).2 !! newFileName upload = Some st.
Proof.
  intros Hst Hs Hr. cbv zeta.
  destruct (finalize_success config env upload w st Hst Hs Hr)
    as (w1 & Hrun & Hnew & Hold & _).
  rewrite Hrun. cbn [snd].
  destruct (newFileName_fresh upload) as [Hid Hmeta].
  unfold metadata_name in Hmeta.
  rewrite run_finalize, run_cleanupUpload. cbv zeta. rewrite Hold.
  cbn [fst snd dir]. split; [done|].
  by rewrite !unlinked_lookup_ne.
Qed.

Lemma finalize_twice_keeps_public_file_witness :
  (finalize default_config Sample.env_rename_fails
     (Sample.upload_named (lit "report.pdf"))
     (finalize default_config Sample.env_full_disk
        (Sample.upload_named (lit "report.pdf")) Sample.world).2).1 = Ok tt
  ∧ dir (finalize default_config Sample.env_rename_fails
           (Sample.upload_named (lit "report.pdf"))
           (finalize default_config Sample.env_full_disk
              (Sample.upload_named (lit "report.pdf")) Sample.world).2).2
      !! newFileName (Sample.upload_named (lit "report.pdf"))
    = Some (mkStats true 0 1024)
  ∧ dir (cleanupUpload Sample.env_rename_fails
           (id (Sample.upload_named (lit "report.pdf")))
           (finalize default_config Sample.env_full_disk
              (Sample.upload_named (lit "report.pdf")) Sample.world).2).2
      !! newFileName (Sample.upload_named (lit "report.pdf"))
    = Some (mkStats true 0 1024).
Proof.
  apply (finalize_twice_keeps_public_file default_config Sample.env_full_disk
           Sample.env_rename_fails (Sample.upload_named (lit "report.pdf"))
           Sample.world (mkStats true 0 1024)); by vm_compute.
Defined.

(** X11. Two uploads of the same file name get the same public name only
    if they have the same identifier: the identifier keeps the public names
    of distinct uploads apart. *)
Theorem newFileName_same_only_for_same_id (u1 u2 : Upload) :
  finalFileName u1 = finalFileName u2 →
  newFileName u1 = newFileName u2 ↔ id u1 = id u2.
Proof.
  intros Hname. rewrite !newFileName_format, Hname. split.
  - intros H. apply app_inv_head in H. apply app_inv_head in H.
    by apply app_inv_tail in H.
  - by intros ->.
Qed.

Lemma newFileName_same_only_for_same_id_witness :
  newFileName (mkUpload (lit "abc") 10 10
                 (Some (<[lit "filename" := Some (lit "a.txt")]> ∅)))
  = newFileName (mkUpload (lit "abd") 20 20
                   (Some (<[lit "filename" := Some (lit "a.txt")]> ∅)))
  ↔ id (mkUpload (lit "abc") 10 10
          (Some (<[lit "filename" := Some (lit "a.txt")]> ∅)))
    = id (mkUpload (lit "abd") 20 20
            (Some (<[lit "filename" := Some (lit "a.txt")]> ∅))).
Proof.
  apply (newFileName_same_only_for_same_id
           (mkUpload (lit "abc") 10 10
              (Some (<[lit "filename" := Some (lit "a.txt")]> ∅)))
           (mkUpload (lit "abd") 20 20
              (Some (<[lit "filename" := Some (lit "a.txt")]> ∅)))).
  by vm_compute.
Defined.

(** X12. The rename target stays inside the upload directory: when the
    identifier holds no separator, the public name holds none either,
    whatever the client sent as file name, and it is neither [.] nor
    [..]. *)
Theorem newFileName_stays_in_directory (upload : Upload) :
  Forall (fun c => c ≠ SLASH) (id upload) →
  Forall (fun c => c ≠ SLASH) (newFileName upload)
  ∧ newFileName upload ≠ lit "."
  ∧ newFileName upload ≠ lit "..".
Proof.
  intros Hid. split; [|split].
  - apply Forall_forall. intros c Hc ->. revert Hc.
    apply newFileName_no_separator. intros H.
    rewrite Forall_forall in Hid. by apply (Hid SLASH).
  - intros E. pose proof (dashes_newFileName upload) as H.
    rewrite E in H. vm_compute in H. lia.
  - intros E. pose proof (dashes_newFileName upload) as H.
    rewrite E in H. vm_compute in H. lia.
Qed.

Lemma newFileName_stays_in_directory_witness :
  Forall (fun c => c ≠ SLASH)
         (newFileName (Sample.upload_named (lit "../../etc/passwd")))
  ∧ newFileName (Sample.upload_named (lit "../../etc/passwd")) ≠ lit "."
  ∧ newFileName (Sample.upload_named (lit "../../etc/passwd")) ≠ lit "..".
Proof.
  apply (newFileName_stays_in_directory
           (Sample.upload_named (lit "../../etc/passwd"))).
  repeat constructor; discriminate.
Defined.

(** ** More on the sweep *)

(** A run that comes to its end leaves the directory filtered by the test
    of the loop. *)
Lemma swept_filter (p : cleanup.Platform) (clock : Z) (d : Dir) :
  cleanup.lists_all p →
  cleanup.outcome p clock d = Ok cleanup.Returned →
  cleanup.swept p clock d
  = filter (fun e : str * Stats => expired clock e.1 e.2 = false) d.
Proof.
  intros Hperm Hret. apply map_eq. intros name.
  rewrite (swept_lookup p clock d name Hperm Hret), map_lookup_filter.
  destruct (d !! name) as [st|]; [|done]. cbn.
  destruct (expired clock name st) eqn:E.
  - by rewrite option_guard_False.
  - by rewrite option_guard_True.
Qed.

(** A loop in which nothing is refused, over names that are all there and
    listed once, comes to its end. *)
Lemma sweep_returns (p : cleanup.Platform) (clock : Z) (files : list str) :
  ∀ (w : World) (deletedCount freedSpace : Z),
    NoDup files →
    (∀ x, x ∈ files →
          is_Some (dir w !! x)
          ∧ cleanup.stat_fails p x = false
          ∧ cleanup.unlink_fails p x = false) →
    ∃ c w', cleanup.sweep p clock files deletedCount freedSpace w = (Ok c, w').
Proof.
  induction files as [|file rest IH]; intros w dc fs Hnd Hall.
  { by exists (dc, fs), w. }
  apply NoDup_cons in Hnd as [Hnotin Hnd].
  assert (∀ x, x ∈ rest →
               is_Some (dir w !! x)
               ∧ cleanup.stat_fails p x = false
               ∧ cleanup.unlink_fails p x = false) as Hall'
    by (intros x Hx; apply Hall, elem_of_cons; by right).
  destruct (Hall file) as ([st Hst] & Hsf & Huf); [apply elem_of_cons; by left|].
  rewrite sweep_cons. case_bool_decide as Hgit; [by apply IH|].
  rewrite run_bind, run_stat, Hst, Hsf.
  destruct (isFile st) eqn:Hfile; [|by apply IH].
  destruct (cleanup.MAX_AGE_MS <? clock - mtimeMs st); [|by apply IH].
  rewrite run_bind, run_unlink, Hst, Huf, Hfile. run_step.
  apply IH; [done|]. intros x Hx. cbn [dir].
  rewrite lookup_delete_ne; [by apply Hall'|]. by intros ->.
Qed.

(** X13. Whatever the file system does, the script ends in one of two
    ways, returning or exiting with code 1, and in either case it has only
    removed: every entry of its directory is as it was or it is gone, and
    only regular files other than [.gitkeep] that were last modified more
    than thirty days ago are gone.  When [readdir] fails it exits with the
    directory untouched; when nothing is refused and every name is listed
    once, it returns. *)
Theorem sweep_removes_only_expired (p : cleanup.Platform) (clock : Z)
    (d : Dir) :
  (cleanup.outcome p clock d = Ok cleanup.Returned
   ∨ cleanup.outcome p clock d = Ok (cleanup.Exited 1))
  ∧ (∀ name,
       cleanup.swept p clock d !! name = d !! name
       ∨ (cleanup.swept p clock d !! name = None
          ∧ ∃ st, d !! name = Some st
                  ∧ name ≠ cleanup.gitkeep ∧ isFile st = true
                  ∧ clock - mtimeMs st > cleanup.MAX_AGE_MS))
  ∧ cleanup.swept p clock d ⊆ d
  ∧ (cleanup.readdir_fails p = true →
     cleanup.outcome p clock d = Ok (cleanup.Exited 1)
     ∧ cleanup.swept p clock d = d)
  ∧ (cleanup.lists_all p → cleanup.readdir_fails p = false →
     (∀ name, is_Some (d !! name) →
              cleanup.stat_fails p name = false
              ∧ cleanup.unlink_fails p name = false) →
     cleanup.outcome p clock d = Ok cleanup.Returned).
Proof.
  split; [apply outcome_cases|]. split; [|split; [|split]].
  - intros name.
    destruct (swept_safe p clock d name) as [E|(E & st & Hst & Hexp)];
      [by left|].
    right. split; [done|]. exists st. split; [done|]. by apply expired_true.
  - apply map_subseteq_spec. intros name st H.
    destruct (swept_safe p clock d name) as [E|[E _]]; congruence.
  - intros Hfail. unfold cleanup.outcome, cleanup.swept.
    rewrite run_cleanupOldFiles_sweep, Hfail. done.
  - intros Hperm Hread Hquiet. unfold cleanup.outcome.
    rewrite run_cleanupOldFiles_sweep, Hread. cbn [dir log hits app].
    destruct (sweep_returns p clock
                (cleanup.listing p (map fst (map_to_list d)))
                (mkWorld d [ConsoleCleaning] ∅) 0 0)
      as ([dc fs] & w' & Hrun).
    + rewrite (Hperm _). apply NoDup_fst_map_to_list.
    + intros x Hx. rewrite (Hperm _) in Hx.
      apply list_elem_of_fmap in Hx as ([k v] & -> & Hkv).
      apply elem_of_map_to_list in Hkv. cbn [fst dir].
      assert (is_Some (d !! k)) as Hsome by (by exists v).
      split; [done|]. by apply Hquiet.
    + by rewrite Hrun.
Qed.

Lemma expired_max (c1 c2 : Z) (name : str) (st : Stats) :
  expired (Z.max c1 c2) name st
  = expired c1 name st || expired c2 name st.
Proof.
  unfold expired.
  destruct (negb (bool_decide (name = cleanup.gitkeep))); [|done].
  destruct (isFile st); [|done]. cbn [andb].
  destruct (cleanup.MAX_AGE_MS <? c1 - mtimeMs st) eqn:E1;
    destruct (cleanup.MAX_AGE_MS <? c2 - mtimeMs st) eqn:E2;
    cbn [orb]; lia.
Qed.

(** X14. Two runs of the script in a row that both come to their end leave
    what the test of the loop leaves at the later of the two times; in
    particular a second run with the same or an earlier clock removes
    nothing more. *)
Theorem swept_twice (p1 p2 : cleanup.Platform) (c1 c2 : Z) (d : Dir) :
  cleanup.lists_all p1 → cleanup.lists_all p2 →
  cleanup.outcome p1 c1 d = Ok cleanup.Returned →
  cleanup.outcome p2 c2 (cleanup.swept p1 c1 d) = Ok cleanup.Returned →
  cleanup.swept p2 c2 (cleanup.swept p1 c1 d)
  = filter (fun e : str * Stats => expired (Z.max c1 c2) e.1 e.2 = false) d
  ∧ (c2 ≤ c1 →
     cleanup.swept p2 c2 (cleanup.swept p1 c1 d) = cleanup.swept p1 c1 d).
Proof.
  intros Hp1 Hp2 Hr1 Hr2.
  assert (cleanup.swept p2 c2 (cleanup.swept p1 c1 d)
          = filter (fun e : str * Stats =>
                      expired (Z.max c1 c2) e.1 e.2 = false) d) as Heq.
  { apply map_eq. intros name.
    rewrite (swept_lookup p2 c2 _ name Hp2 Hr2).
    rewrite (swept_lookup p1 c1 d name Hp1 Hr1), map_lookup_filter.
    destruct (d !! name) as [st|]; [|done]. cbn.
    rewrite expired_max.
    destruct (expired c1 name st); cbn [orb].
    - by rewrite option_guard_False.
    - destruct (expired c2 name st) eqn:E.
      + by rewrite option_guard_False.
      + by rewrite option_guard_True. }
  split; [exact Heq|]. intros Hle. rewrite Heq.
  rewrite Z.max_l by lia. symmetry. by apply swept_filter.
Qed.

Lemma swept_twice_witness :
  cleanup.swept Sample.quiet (cleanup.MAX_AGE_MS + 1)
    (cleanup.swept Sample.quiet 1000 Sample.stored)
  = filter (fun e : str * Stats =>
              expired (Z.max 1000 (cleanup.MAX_AGE_MS + 1)) e.1 e.2 = false)
           Sample.stored
  ∧ cleanup.swept Sample.quiet 1000
      (cleanup.swept Sample.quiet (cleanup.MAX_AGE_MS + 1) Sample.stored)
    = cleanup.swept Sample.quiet (cleanup.MAX_AGE_MS + 1) Sample.stored.
Proof.
  assert (cleanup.lists_all Sample.quiet) as Hq by (intros names; reflexivity).
  split.
  - apply (swept_twice Sample.quiet Sample.quiet 1000
             (cleanup.MAX_AGE_MS + 1) Sample.stored Hq Hq);
      by vm_compute.
  - apply (swept_twice Sample.quiet Sample.quiet (cleanup.MAX_AGE_MS + 1)
             1000 Sample.stored Hq Hq); by vm_compute.
Defined.

Lemma entries_of_cons (d : Dir) (name : str) (names : list str) :
  entries_of d (name :: names) =
  match d !! name with
  | Some st => (name, st) :: entries_of d names
  | None => entries_of d names
  end.
Proof. unfold entries_of. cbn. by destruct (d !! name). Qed.

Lemma entries_of_delete (d : Dir) (file : str) (names : list str) :
  file ∉ names → entries_of (delete file d) names = entries_of d names.
Proof.
  induction names as [|name rest IH]; intros Hnotin; [done|].
  apply not_elem_of_cons in Hnotin as [Hne Hnotin].
  rewrite !entries_of_cons, lookup_delete_ne by done. by rewrite IH.
Qed.

(** The loop again, this time with its counters and what it prints. *)
Lemma run_sweep_log (p : cleanup.Platform) (clock : Z) (files : list str) :
  ∀ (w w' : World) (deletedCount freedSpace : Z) (c : Z * Z),
    NoDup files →
    cleanup.sweep p clock files deletedCount freedSpace w = (Ok c, w') →
    let gone := filter (fun e => expired clock e.1 e.2 = true)
                       (entries_of (dir w) files) in
    c = (deletedCount + Z.of_nat (length gone), freedSpace + total_size gone)
    ∧ log w' = log w ++ map (fun e => ConsoleDeleted e.1 (size e.2)) gone.
Proof.
  induction files as [|file rest IH]; intros w w' dc fs c Hnd; cbv zeta.
  { intros [= <- <-]. cbn. by rewrite !Z.add_0_r, app_nil_r. }
  apply NoDup_cons in Hnd as [Hnotin Hnd].
  rewrite sweep_cons, entries_of_cons.
  assert ((∀ st, dir w !! file = Some st → expired clock file st = false) →
          filter (fun e : str * Stats => expired clock e.1 e.2 = true)
            match dir w !! file with
            | Some st => (file, st) :: entries_of (dir w) rest
            | None => entries_of (dir w) rest
            end
          = filter (fun e : str * Stats => expired clock e.1 e.2 = true)
                   (entries_of (dir w) rest)) as Hkeep.
  { intros Hexp. destruct (dir w !! file) as [st|]; [|done].
    rewrite filter_cons_False; [done|]. cbn. by rewrite (Hexp st). }
  case_bool_decide as Hgit.
  { rewrite Hkeep by (intros st _; subst file; apply expired_gitkeep).
    by apply IH. }
  rewrite run_bind, run_stat.
  destruct (dir w !! file) as [st|] eqn:Hst; [|discriminate].
  destruct (cleanup.stat_fails p file); [discriminate|].
  destruct (isFile st) eqn:Hfile.
  2:{ rewrite Hkeep; [by apply IH|]. intros st' [= <-]. unfold expired.
      by rewrite Hfile, andb_false_r. }
  destruct (cleanup.MAX_AGE_MS <? clock - mtimeMs st) eqn:Hage.
  2:{ rewrite Hkeep; [by apply IH|]. intros st' [= <-]. unfold expired.
      by rewrite Hage, andb_false_r. }
  rewrite run_bind, run_unlink, Hst.
  destruct (cleanup.unlink_fails p file); [discriminate|].
  rewrite Hfile. run_step. intros Hrun.
  apply IH in Hrun; [|done]. cbv zeta in Hrun. cbn [dir log] in Hrun.
  rewrite entries_of_delete in Hrun by done.
  destruct Hrun as [-> ->].
  rewrite filter_cons_True
    by (cbn; unfold expired; by rewrite Hfile, Hage, bool_decide_eq_false_2).
  set (gone := filter (fun e : str * Stats => expired clock e.1 e.2 = true)
                      (entries_of (dir w) rest)).
  change (total_size ((file, st) :: gone)) with (size st + total_size gone).
  split.
  - f_equal; [cbn [length]; lia | lia].
  - cbn [map fst snd]. by rewrite <- app_assoc.
Qed.

(** X15. When the script comes to its end, what it has printed is true: it
    has announced itself, named each removed file once with its size, in
    the order [readdir] listed them, and ended with a summary made from the
    number of files it removed and the sum of their sizes. *)
Theorem cleanupOldFiles_summary (p : cleanup.Platform) (clock : Z) (d : Dir) :
  cleanup.lists_all p →
  cleanup.outcome p clock d = Ok cleanup.Returned →
  let gone := expired_entries p clock d in
  log (cleanup.cleanupOldFiles p clock (mkWorld d [] ∅)).2
  = [ConsoleCleaning]
    ++ map (fun e => ConsoleDeleted e.1 (size e.2)) gone
    ++ [ConsoleSummary (Z.of_nat (length gone)) (total_size gone)]
  ∧ (∀ name st, (name, st) ∈ gone ↔
                d !! name = Some st
                ∧ cleanup.swept p clock d !! name = None).
Proof.
  intros Hperm Hret. cbv zeta. split.
  - unfold cleanup.outcome in Hret. revert Hret.
    rewrite run_cleanupOldFiles_sweep.
    destruct (cleanup.readdir_fails p); [discriminate|].
    cbn [dir log hits app].
    destruct (cleanup.sweep _ _ _ _ _ _) as [[c|e] w'] eqn:Hrun;
      [|discriminate].
    apply run_sweep_log in Hrun;
      [|rewrite (Hperm _); apply NoDup_fst_map_to_list].
    cbv zeta in Hrun. cbn [dir log] in Hrun. destruct Hrun as [-> Hlog].
    intros _. cbn [snd log]. rewrite Hlog, !Z.add_0_l.
    unfold expired_entries. by rewrite <- app_assoc.
  - intros name st. unfold expired_entries.
    rewrite list_elem_of_filter. cbn [fst snd].
    unfold entries_of. rewrite list_elem_of_omap.
    rewrite (swept_lookup p clock d name Hperm Hret).
    split.
    + intros (Hexp & x & Hx & Hsome).
      destruct (d !! x) as [st'|] eqn:Hst'; [|done].
      injection Hsome as <- <-. by rewrite Hst', Hexp.
    + intros (Hst & Hgone). rewrite Hst in Hgone.
      destruct (expired clock name st) eqn:Hexp; [|done].
      split; [done|]. exists name. split; [|by rewrite Hst].
      rewrite (Hperm _). apply list_elem_of_fmap. exists (name, st).
      split; [done|]. by apply elem_of_map_to_list.
Qed.

Lemma cleanupOldFiles_summary_witness :
  log (cleanup.cleanupOldFiles Sample.quiet (cleanup.MAX_AGE_MS + 1)
         (mkWorld Sample.stored [] ∅)).2
  = [ConsoleCleaning]
    ++ map (fun e => ConsoleDeleted e.1 (size e.2))
         (expired_entries Sample.quiet (cleanup.MAX_AGE_MS + 1) Sample.stored)
    ++ [ConsoleSummary
          (Z.of_nat (length (expired_entries Sample.quiet
                               (cleanup.MAX_AGE_MS + 1) Sample.stored)))
          (total_size (expired_entries Sample.quiet (cleanup.MAX_AGE_MS + 1)
                         Sample.stored))]
  ∧ total_size (expired_entries Sample.quiet (cleanup.MAX_AGE_MS + 1)
                  Sample.stored) = 1144.
Proof.
  split; [|by vm_compute].
  apply (cleanupOldFiles_summary Sample.quiet (cleanup.MAX_AGE_MS + 1)
           Sample.stored).
  - intros names. reflexivity.
  - by vm_compute.
Defined.

(** ** The limiter over a run of creations *)

Lemma creations_counted (times : list Z) (req : Request) :
  method req = lit "POST" →
  ∀ (w : World) (n : nat) (resetTime : Z),
    hits w !! ip req = Some (Z.of_nat n, resetTime) →
    Forall (fun t => t < resetTime) times →
    creations times req w
    = replicate (min (50 - n) (length times)) 201
      ++ replicate (length times - (50 - n)) 429.
Proof.
  intros Hm. induction times as [|t rest IH]; intros w n resetTime Hh Hall.
  - by rewrite Nat.min_0_r.
  - apply Forall_cons in Hall as [Ht Hall].
    cbn [creations]. unfold rateLimit.
    cbn [skip uploadCreationLimiter]. rewrite bool_decide_eq_true_2 by done.
    cbn [negb]. rewrite run_bind. unfold increment. rewrite Hh. cbn [now].
    assert ((resetTime <=? t) = false) as -> by lia.
    set (w1 := mkWorld (dir w) (log w)
                 (<[ip req := (Z.of_nat n + 1, resetTime)]> (hits w))).
    assert (hits w1 !! ip req = Some (Z.of_nat (S n), resetTime)) as Hh1.
    { subst w1. cbn [hits]. rewrite lookup_insert_eq. do 2 f_equal. lia. }
    specialize (IH w1 (S n) resetTime Hh1 Hall).
    destruct (max uploadCreationLimiter <? Z.of_nat n + 1) eqn:Hover;
      cbn [max uploadCreationLimiter] in Hover.
    + unfold ret at 1. cbn [status]. rewrite IH.
      replace (50 - n)%nat with 0%nat by lia.
      replace (50 - S n)%nat with 0%nat by lia.
      cbn [length]. rewrite !Nat.sub_0_r. by cbn.
    + unfold created at 1. unfold ret at 1. cbn [status]. rewrite IH.
      cbn [length].
      replace (min (50 - n) (S (length rest)))
        with (S (min (50 - S n) (length rest))) by lia.
      replace (S (length rest) - (50 - n))%nat
        with (length rest - (50 - S n))%nat by lia.
      done.
Qed.

(** X16. Of the creation requests a client sends within the fifteen
    minutes that follow its first one, the first fifty go through and all
    the others are answered 429. *)
Theorem creations_fifty_per_window (first : Z) (later : list Z)
    (req : Request) (w : World) :
  method req = lit "POST" →
  hits w !! ip req = None →
  Forall (fun t => t < first + 900000) later →
  creations (first :: later) req w
  = replicate (min 50 (S (length later))) 201
    ++ replicate (S (length later) - 50) 429.
Proof.
  intros Hm Hnew Hall.
  cbn [creations]. unfold rateLimit.
  cbn [skip uploadCreationLimiter]. rewrite bool_decide_eq_true_2 by done.
  cbn [negb]. rewrite run_bind. unfold increment. rewrite Hnew.
  cbn [now]. change (max uploadCreationLimiter <? 1) with false.
  change (windowMs uploadCreationLimiter) with 900000. cbv iota.
  unfold created at 1. unfold ret at 1. cbn [status].
  rewrite (creations_counted later req Hm _ 1 (first + 900000)).
  - replace (min 50 (S (length later)))
      with (S (min (50 - 1) (length later))) by lia.
    replace (S (length later) - 50)%nat
      with (length later - (50 - 1))%nat by lia.
    done.
  - cbn [hits]. by rewrite lookup_insert_eq.
  - exact Hall.
Qed.

Lemma creations_fifty_per_window_witness :
  creations (0 :: replicate 59 1000) Sample.create_request Sample.world
  = replicate (min 50 (S (length (replicate 59 1000)))) 201
    ++ replicate (S (length (replicate 59 1000)) - 50) 429.
Proof.
  apply (creations_fifty_per_window 0 (replicate 59 1000)
           Sample.create_request Sample.world).
  - reflexivity.
  - by vm_compute.
  - apply Forall_replicate. lia.
Defined.

(** ** Start-up *)

(** What [ensureUploadDir] does, by outcome. *)
Lemma run_ensureUploadDir (clock : Z) (d : startup.Disk) :
  let found := default ∅ (startup.uploads d) in
  match startup.ensureUploadDir clock d with
  | (startup.Done _, d') =>
      uploads_usable d = true
      ∧ startup.uploads d' = Some (delete startup.write_test found)
      ∧ startup.listening d' = startup.listening d
  | (startup.Rejected e, d') =>
      uploads_usable d = false
      ∧ startup.listening d' = startup.listening d
      ∧ match e with
        | startup.CannotCreate =>
            startup.uploads d = None ∧ startup.uploads d' = None
        | startup.NotWritable | startup.IsDirectory =>
            startup.uploads d' = startup.uploads d
            ∧ startup.UploadDirNotWritable e ∈ startup.events d'
        | startup.NoSpace =>
            startup.uploads d'
            = Some (<[startup.write_test := mkStats true clock 0]> found)
            ∧ startup.UploadDirNotWritable e ∈ startup.events d'
        | startup.CannotUnlink =>
            startup.uploads d'
            = Some (<[startup.write_test := mkStats true clock 4]> found)
            ∧ startup.UploadDirNotWritable e ∈ startup.events d'
        | startup.Missing => False
        end
  end.
Proof.
  assert (∀ (evs : list startup.Event) e,
            startup.UploadDirNotWritable e
            ∈ evs ++ [startup.UploadDirNotWritable e]) as Hlogged.
  { intros evs e. apply elem_of_app. right. apply elem_of_cons. by left. }
  destruct d as [[entries|] writable full refused logs mk evs lst];
    unfold startup.ensureUploadDir, uploads_usable, startup.boot_try,
      startup.access_uploads, startup.mkdir_uploads, startup.writeFile_test,
      startup.unlink_test, startup.info, startup.boot_throw,
      startup.with_entries,
      mbind, startup.Boot_bind, startup.boot_bind;
    cbn [startup.uploads startup.uploads_writable startup.logs_exists
         startup.disk_full startup.unlink_refused
         startup.can_mkdir startup.events startup.listening default].
  - destruct writable; cbn [negb andb]; [|by cbn].
    destruct (entries !! startup.write_test) as [st|] eqn:Htest.
    + destruct (isFile st) eqn:Hfile; cbn [negb andb]; [|by cbn].
      destruct full; cbn [negb andb startup.uploads startup.events
                          startup.listening startup.disk_full
                          startup.unlink_refused]; [by cbn|].
      rewrite lookup_insert_eq.
      destruct refused; cbn; [done|].
      split; [done|]. split; [|done]. by rewrite delete_insert_eq.
    + cbn [negb andb].
      destruct full; cbn [negb andb startup.uploads startup.events
                          startup.listening startup.disk_full
                          startup.unlink_refused]; [by cbn|].
      rewrite lookup_insert_eq.
      destruct refused; cbn; [done|].
      split; [done|]. split; [|done]. by rewrite delete_insert_eq.
  - destruct mk; [|by cbn].
    cbn [startup.uploads startup.uploads_writable startup.events
         startup.listening startup.disk_full startup.unlink_refused
         negb andb].
    rewrite lookup_empty.
    destruct full; cbn [negb andb startup.uploads startup.events
                        startup.listening startup.disk_full
                        startup.unlink_refused]; [by cbn|].
    rewrite lookup_insert_eq.
    destruct refused; cbn; [done|].
    split; [done|]. split; [|done]. by rewrite delete_insert_eq.
Qed.

(** X17. [ensureUploadDir] returns normally exactly when the upload
    directory passes its checks; it then exists, holds no test file, and
    every other entry is as it was.  When it rejects, the failure has been
    logged unless it is that of [mkdir]; the entries it found are as they
    were, and the test file is left behind, empty, when the write found no
    room, or whole, when its unlink was refused. *)
Theorem ensureUploadDir_outcome (clock : Z) (d : startup.Disk) :
  let found := default ∅ (startup.uploads d) in
  match startup.ensureUploadDir clock d with
  | (startup.Done _, d') =>
      uploads_usable d = true
      ∧ startup.uploads d' = Some (delete startup.write_test found)
      ∧ startup.listening d' = startup.listening d
  | (startup.Rejected e, d') =>
      uploads_usable d = false
      ∧ startup.listening d' = startup.listening d
      ∧ match e with
        | startup.CannotCreate =>
            startup.uploads d = None ∧ startup.uploads d' = None
        | startup.NotWritable | startup.IsDirectory =>
            startup.uploads d' = startup.uploads d
            ∧ startup.UploadDirNotWritable e ∈ startup.events d'
        | startup.NoSpace =>
            startup.uploads d'
            = Some (<[startup.write_test := mkStats true clock 0]> found)
            ∧ startup.UploadDirNotWritable e ∈ startup.events d'
        | startup.CannotUnlink =>
            startup.uploads d'
            = Some (<[startup.write_test := mkStats true clock 4]> found)
            ∧ startup.UploadDirNotWritable e ∈ startup.events d'
        | startup.Missing => False
        end
  end.
Proof. apply run_ensureUploadDir. Qed.

(** X18. The server starts to listen exactly when both directories pass
    their checks: if the logs directory cannot be made, or the upload
    directory cannot be made or does not take the test file,
    [startServer] rejects and [listen] is never reached. *)
Theorem startServer_listens_when_usable (clock : Z) (d : startup.Disk) :
  ((startup.startServer clock d).1 = startup.Done tt
   ↔ logs_usable d && uploads_usable d = true)
  ∧ startup.listening (startup.startServer clock d).2
    = startup.listening d || (logs_usable d && uploads_usable d).
Proof.
  unfold startup.startServer.
  assert (∀ d1 : startup.Disk,
    startup.uploads d1 = startup.uploads d →
    startup.uploads_writable d1 = startup.uploads_writable d →
    startup.disk_full d1 = startup.disk_full d →
    startup.unlink_refused d1 = startup.unlink_refused d →
    startup.can_mkdir d1 = startup.can_mkdir d →
    startup.listening d1 = startup.listening d →
    (((startup.ensureUploadDir clock ≫= λ _, startup.listen) d1).1
      = startup.Done tt ↔ uploads_usable d = true)
    ∧ startup.listening
        ((startup.ensureUploadDir clock ≫= λ _, startup.listen) d1).2
      = startup.listening d || uploads_usable d) as Hrest.
  { intros d1 Hu Hw Hf Hr Hm Hl.
    assert (uploads_usable d1 = uploads_usable d) as Husable
      by (unfold uploads_usable; by rewrite Hu, Hw, Hf, Hr, Hm).
    pose proof (run_ensureUploadDir clock d1) as Hup. cbv zeta in Hup.
    change ((startup.ensureUploadDir clock ≫= λ _, startup.listen) d1)
      with (match startup.ensureUploadDir clock d1 with
            | (startup.Done a, d') => startup.listen d'
            | (startup.Rejected e, d') => (startup.Rejected e, d')
            end).
    destruct (startup.ensureUploadDir clock d1) as [[[]|e] d2].
    - destruct Hup as (Hok & _ & _). rewrite <- Husable, Hok. cbn.
      split; [done|]. by rewrite orb_true_r.
    - destruct Hup as (Hno & Hl2 & _). rewrite <- Husable, Hno. cbn.
      split; [done|]. by rewrite Hl2, Hl, orb_false_r. }
  unfold logs_usable.
  change ((startup.ensureLogsDir
           ≫= λ _, startup.ensureUploadDir clock ≫= λ _, startup.listen) d)
    with (match startup.ensureLogsDir d with
          | (startup.Done a, d') =>
              (startup.ensureUploadDir clock ≫= λ _, startup.listen) d'
          | (startup.Rejected e, d') => (startup.Rejected e, d')
          end).
  unfold startup.ensureLogsDir, startup.boot_try, startup.access_logs.
  destruct (startup.logs_exists d) eqn:Hlogs.
  - cbn [orb andb]. by apply Hrest.
  - change ((startup.mkdir_logs ≫= λ _, startup.info startup.LogsDirCreated) d)
      with (match startup.mkdir_logs d with
            | (startup.Done a, d') => startup.info startup.LogsDirCreated d'
            | (startup.Rejected e, d') => (startup.Rejected e, d')
            end).
    unfold startup.mkdir_logs. rewrite Hlogs.
    destruct (startup.can_mkdir d) eqn:Hmk; cbn [orb andb].
    + unfold startup.info. cbn [startup.uploads startup.uploads_writable
        startup.disk_full startup.unlink_refused
        startup.logs_exists startup.can_mkdir startup.events
        startup.listening]. by apply Hrest.
    + cbn. split; [done|]. by rewrite orb_false_r.
Qed.

(** ** The limiter in front of the tus handler *)

(** X19. A creation request from a client over its limit stops at the
    limiter: the route answers 429, the tus handler is not run, and the
    directory and the log are as they were; only the client's counter
    moves. *)
Theorem uploadApp_rejects_before_tus (namingFunction : Request → str)
    (sidecar_bytes : Upload → Z) (handle_other : Request → M Response)
    (config : Config) (env : Env) (req : Request) (w : World)
    (n resetTime : Z) :
  method req = lit "POST" →
  hits w !! ip req = Some (n, resetTime) →
  now env < resetTime → 50 ≤ n →
  ∃ w', uploadApp namingFunction sidecar_bytes handle_other config env req w
        = (Ok (mkResponse 429 None), w')
    ∧ dir w' = dir w ∧ log w' = log w
    ∧ hits w' = <[ip req := (n + 1, resetTime)]> (hits w).
Proof.
  intros Hm Hh Hnow Hn. unfold uploadApp.
  rewrite (limiter_counts_POST env req _ w n resetTime Hm Hh Hnow Hn).
  by eexists.
Qed.

Lemma uploadApp_rejects_before_tus_witness :
  ∃ w', uploadApp (fun _ => lit "abc") (fun _ => 120)
          (fun _ => ret (mkResponse 204 None))
          default_config Sample.env_full_disk Sample.create_request
          Sample.throttled
        = (Ok (mkResponse 429 None), w')
    ∧ dir w' = dir Sample.throttled ∧ log w' = log Sample.throttled
    ∧ hits w' = <[ip Sample.create_request := (1000 + 1, 900000)]>
                  (hits Sample.throttled).
Proof.
  apply (uploadApp_rejects_before_tus (fun _ => lit "abc") (fun _ => 120)
           (fun _ => ret (mkResponse 204 None))
           default_config Sample.env_full_disk Sample.create_request
           Sample.throttled 1000 900000).
  - reflexivity.
  - by vm_compute.
  - by vm_compute.
  - by vm_compute.
Defined.

(** ** Finalization, then the sweep *)

(** The script does not read the configuration of the server: when the
    server stores elsewhere, what it finalizes is out of the script's
    reach. *)
Lemma directory_elsewhere (config : Config) (server_uploads elsewhere : Dir) :
  uploadDir config ≠ cleanup.UPLOAD_DIR →
  cleanup.directory config server_uploads elsewhere = elsewhere.
Proof.
  intros Hne. unfold cleanup.directory. by rewrite bool_decide_eq_false_2.
Qed.

(** X20. When the server stores where the script sweeps, the age the sweep
    goes by is the age of the partial file: a finalized upload keeps the
    modification time of its last chunk, so a run of the script that comes
    to its end removes its public file exactly when that time, not the time
    of finalization, lies more than thirty days back. *)
Theorem sweep_after_finalize (config : Config) (env : Env) (upload : Upload)
    (w : World) (st : Stats) (p : cleanup.Platform) (clock : Z)
    (elsewhere : Dir) :
  uploadDir config = cleanup.UPLOAD_DIR →
  dir w !! id upload = Some st →
  stat_fault env = false → rename_fault env = false →
  isFile st = true →
  cleanup.lists_all p →
  cleanup.outcome p clock
    (cleanup.directory config (dir (finalize config env upload w).2)
                       elsewhere)
  = Ok cleanup.Returned →
  cleanup.swept p clock
    (cleanup.directory config (dir (finalize config env upload w).2)
                       elsewhere)
    !! newFileName upload
  = if cleanup.MAX_AGE_MS <? clock - mtimeMs st then None else Some st.
Proof.
  intros Hdir Hst Hs Hr Hfile Hperm.
  unfold cleanup.directory. rewrite bool_decide_eq_true_2 by done.
  intros Hret.
  destruct (finalize_success config env upload w st Hst Hs Hr)
    as (w1 & Hrun & Hnew & _).
  rewrite Hrun in Hret |- *. cbn [snd] in Hret |- *.
  rewrite (swept_lookup p clock _ _ Hperm Hret), Hnew.
  unfold expired. rewrite Hfile, bool_decide_eq_false_2; [done|].
  intros E. pose proof (dashes_newFileName upload) as H.
  rewrite E in H. vm_compute in H. lia.
Qed.

Lemma sweep_after_finalize_witness :
  cleanup.swept Sample.quiet (cleanup.MAX_AGE_MS + 1)
    (cleanup.directory default_config
       (dir (finalize default_config Sample.env_full_disk
               (Sample.upload_named (lit "report.pdf")) Sample.world).2) ∅)
    !! newFileName (Sample.upload_named (lit "report.pdf"))
  = if cleanup.MAX_AGE_MS
       <? cleanup.MAX_AGE_MS + 1 - mtimeMs (mkStats true 0 1024)
    then None else Some (mkStats true 0 1024).
Proof.
  apply (sweep_after_finalize default_config Sample.env_full_disk
           (Sample.upload_named (lit "report.pdf")) Sample.world
           (mkStats true 0 1024) Sample.quiet (cleanup.MAX_AGE_MS + 1) ∅);
    first [by vm_compute | intros names; reflexivity].
Defined.
